(** * Speaker recognition pipeline: noise bank, dataset split, augmentation,
      classifier head and training controller.

    Shallow embedding of [examples/audio/ipynb/speaker_recognition_using_cnn.ipynb].
    Python lists are Rocq lists, sample values are exact rationals ([Q]) where
    the code only adds, multiplies, divides and compares them, and reals ([R])
    for the classifier, whose softmax needs the exponential. A Python
    exception is the [Raise] constructor of [result]. *)

From Stdlib Require Import List Arith ZArith QArith Qabs Qminmax Qround Reals Lia Psatz Bool.
From Stdlib Require Import String Ascii Permutation.
Import ListNotations.

Set Warnings "-abstract-large-number".

Local Open Scope nat_scope.

(** ** Exceptions *)

Inductive exn : Type :=
| RuntimeError
| ValueError
| InvalidArgumentError
| IndexError.

Inductive result (A : Type) : Type :=
| Ok (a : A)
| Raise (e : exn).

Arguments Ok {A} a.
Arguments Raise {A} e.

Definition bind {A B : Type} (r : result A) (k : A -> result B) : result B :=
  match r with
  | Ok a => k a
  | Raise e => Raise e
  end.

Notation "x <- r ;; k" := (bind r (fun x => k))
  (at level 61, r at next level, right associativity).

(** ** Configuration constants (third code cell) *)

Definition DATASET_ROOT : string := "16000_pcm_speeches".
Definition AUDIO_SUBFOLDER : string := "audio".
Definition NOISE_SUBFOLDER : string := "noise".

(** [os.path.join a b] for a relative [b] and a non-empty [a] that does not
    end with a separator, the only way the notebook calls it. *)
Definition path_join (a b : string) : string := (a ++ "/" ++ b)%string.

Definition DATASET_AUDIO_PATH : string := path_join DATASET_ROOT AUDIO_SUBFOLDER.
Definition DATASET_NOISE_PATH : string := path_join DATASET_ROOT NOISE_SUBFOLDER.

Definition VALID_SPLIT : Q := 1 # 10.
Definition SHUFFLE_SEED : nat := 43.
Definition SAMPLING_RATE : nat := 16000.
Definition SCALE : Q := 1 # 2.
Definition BATCH_SIZE : nat := 128.
Definition EPOCHS : nat := 1.

(** ** Directory listings *)

(** One entry of [os.listdir(d)]: its name, what [os.path.isdir] answers for
    it, and, for a directory, what [os.listdir] returns for it. *)
Record DirEntry : Type := mkDirEntry {
  entry_name : string;
  entry_isdir : bool;
  entry_listdir : list string
}.

(** [s.endswith(suffix)] *)
Definition endswith (s suffix : string) : bool :=
  let n := String.length s in
  let k := String.length suffix in
  (k <=? n) && String.eqb (substring (n - k) k s) suffix.

(** The comprehension
    [[os.path.join(d, f) for f in os.listdir(d) if f.endswith(".wav")]]. *)
Definition wav_files_in (dir : string) (files : list string) : list string :=
  map (path_join dir) (filter (fun f => endswith f ".wav") files).

(** ** Noise preparation: discovery *)

Fixpoint noise_paths (listing : list DirEntry) : list string :=
  match listing with
  | [] => []
  | subdir :: rest =>
      let subdir_path := path_join DATASET_NOISE_PATH (entry_name subdir) in
      (if entry_isdir subdir
       then wav_files_in subdir_path (entry_listdir subdir)
       else [])
      ++ noise_paths rest
  end.

(** The discovery cell: the loop over [os.listdir(DATASET_NOISE_PATH)]
    followed by [if not noise_paths: raise RuntimeError(...)]. *)
Definition discover_noise (listing : list DirEntry) : result (list string) :=
  match noise_paths listing with
  | [] => Raise RuntimeError
  | p :: ps => Ok (p :: ps)
  end.

(** ** Noise preparation: chunking *)

(** What [tf.audio.decode_wav(..., desired_channels=1)] returns: the samples
    of the single channel and the sample rate declared in the file. *)
Record Wav : Type := mkWav {
  wav_samples : list Q;
  wav_rate : nat
}.

Abbreviation Chunk := (list Q).

Fixpoint pieces {A : Type} (size num : nat) (value : list A) : list (list A) :=
  match num with
  | 0 => []
  | S num' => firstn size value :: pieces size num' (skipn size value)
  end.

(** [tf.split(value, num)] with an integer [num], along axis 0: [num] equal
    pieces. The [Split] op requires [num >= 1] and [num] to divide the
    length of the axis. *)
Definition tf_split {A : Type} (value : list A) (num : nat) : result (list (list A)) :=
  if num =? 0 then Raise InvalidArgumentError
  else if List.length value mod num =? 0
       then Ok (pieces (List.length value / num) num value)
       else Raise InvalidArgumentError.

(** [load_noise_sample], on the decoded file. [None] is Python's [None]
    (the file is ignored). [int(sample.shape[0] / SAMPLING_RATE)] is the
    quotient of two non-negative integers truncated, that is [Nat.div]
    (the float quotient is off by less than one part in 2^52, which cannot
    reach the next integer for any sample count a file can hold). *)
Definition load_noise_sample (w : Wav) : result (option (list Chunk)) :=
  if wav_rate w =? SAMPLING_RATE then
    let slices := List.length (wav_samples w) / SAMPLING_RATE in
    sample <- tf_split (firstn (slices * SAMPLING_RATE) (wav_samples w)) slices ;;
    Ok (Some sample)
  else Ok None.

(** Truth value of [sample] in [if sample:], for [None] or a list. *)
Definition truthy {A : Type} (sample : option (list A)) : bool :=
  match sample with
  | None => false
  | Some [] => false
  | Some (_ :: _) => true
  end.

(** The loop [for path in noise_paths: ...; noises.extend(sample)], over the
    decoded files in the order of [noise_paths]. *)
Fixpoint extend_noises (files : list Wav) (noises : list Chunk) : result (list Chunk) :=
  match files with
  | [] => Ok noises
  | w :: rest =>
      sample <- load_noise_sample w ;;
      extend_noises rest
        (if truthy sample
         then match sample with Some s => noises ++ s | None => noises end
         else noises)
  end.

(** [tf.stack(values)] with [axis=0]: a list that [convert_to_tensor]
    takes as it is is converted directly, so the empty list gives the
    empty tensor of shape (0,), here the empty list; tensors are packed,
    and must be of one shape. *)
Definition tf_stack {A : Type} (values : list (list A)) : result (list (list A)) :=
  match values with
  | [] => Ok []
  | v :: vs =>
      if forallb (fun u => List.length u =? List.length v) vs
      then Ok (v :: vs)
      else Raise InvalidArgumentError
  end.

Definition build_noises (files : list Wav) : result (list Chunk) :=
  noises <- extend_noises files [] ;;
  tf_stack noises.

(** [noises.shape[1]]: the stack of chunks has shape (chunks, samples, 1),
    the stack of no chunk has shape (0,) and no second dimension. *)
Definition shape_1 {A : Type} (noises : list (list A)) : result nat :=
  match noises with
  | [] => Raise IndexError
  | v :: _ => Ok (List.length v)
  end.

(** The arguments of the [print] that ends the cell: [len(noise_paths)],
    [noises.shape[0]] and [noises.shape[1] // SAMPLING_RATE]. *)
Definition noise_report (files : list Wav) (noises : list Chunk)
  : result (nat * nat * nat) :=
  samples <- shape_1 noises ;;
  Ok (List.length files, List.length noises, samples / SAMPLING_RATE).

(** The cell from the loop over the noise files to the [print]. *)
Definition noise_cell (files : list Wav) : result (list Chunk) :=
  noises <- build_noises files ;;
  report <- noise_report files noises ;;
  Ok noises.


(** ** Dataset generation: clips and labels *)

(** The loop [for label, name in enumerate(class_names)], started at
    [label]; each class directory contributes its [.wav] files and as many
    copies of its label. *)
Fixpoint collect_clips (label : nat) (classes : list DirEntry)
  : list string * list nat :=
  match classes with
  | [] => ([], [])
  | c :: rest =>
      let dir_path := path_join DATASET_AUDIO_PATH (entry_name c) in
      let speaker_sample_paths := wav_files_in dir_path (entry_listdir c) in
      let '(audio_paths, labels) := collect_clips (S label) rest in
      (speaker_sample_paths ++ audio_paths,
       repeat label (List.length speaker_sample_paths) ++ labels)
  end.

Definition audio_paths (classes : list DirEntry) : list string :=
  fst (collect_clips 0 classes).

Definition labels (classes : list DirEntry) : list nat :=
  snd (collect_clips 0 classes).

(** ** Seeded shuffle *)

(** numpy's legacy generator, as far as [RandomState.shuffle] uses it: the
    state a seed gives, and [random_interval state max], a draw from
    [0 .. max] together with the next state. The draw depends on the state
    and on [max] only. *)
Record BitGenerator : Type := mkBitGenerator {
  rng_state : Type;
  RandomState : nat -> rng_state;
  random_interval : rng_state -> nat -> nat * rng_state
}.

Fixpoint set_nth {A : Type} (i : nat) (v : A) (x : list A) : list A :=
  match x, i with
  | [], _ => []
  | _ :: t, 0 => v :: t
  | h :: t, S i' => h :: set_nth i' v t
  end.

(** [x[i], x[j] = x[j], x[i]]. Both indices are in range wherever
    [shuffle] uses it with a draw [j <= i]; out of range the list is left
    as it is. *)
Definition swap {A : Type} (i j : nat) (x : list A) : list A :=
  match nth_error x i, nth_error x j with
  | Some xi, Some xj => set_nth j xi (set_nth i xj x)
  | _, _ => x
  end.

Section Shuffle.
Variable g : BitGenerator.

(** [for i in reversed(range(1, n)): j = random_interval(state, i);
    x[i], x[j] = x[j], x[i]], entered with [i = n - 1]. *)
Fixpoint shuffle_loop {A : Type} (i : nat) (s : rng_state g) (x : list A)
  : rng_state g * list A :=
  match i with
  | 0 => (s, x)
  | S i' =>
      let '(j, s') := random_interval g s i in
      shuffle_loop i' s' (swap i j x)
  end.

(** [rng = np.random.RandomState(seed); rng.shuffle(x)] *)
Definition shuffle {A : Type} (seed : nat) (x : list A) : list A :=
  snd (shuffle_loop (List.length x - 1) (RandomState g seed) x).

Definition shuffled_paths (classes : list DirEntry) : list string :=
  shuffle SHUFFLE_SEED (audio_paths classes).

Definition shuffled_labels (classes : list DirEntry) : list nat :=
  shuffle SHUFFLE_SEED (labels classes).
End Shuffle.

(** The permutation a seed applies to lists of length [n]. *)
Definition permutation_of (g : BitGenerator) (seed n : nat) : list nat :=
  shuffle g seed (seq 0 n).

(** ** Split into training and validation *)

(** [int(q)]: truncation towards zero. *)
Definition py_int (q : Q) : Z := Z.quot (Qnum q) (Zpos (Qden q)).

(** A slice bound [k] of a list of length [len], as Python normalises it:
    a negative bound counts from the end, and both are clamped. *)
Definition slice_bound (len : nat) (k : Z) : nat :=
  if (k <? 0)%Z
  then Z.to_nat (Z.max 0 (Z.of_nat len + k))
  else Nat.min (Z.to_nat k) len.

(** [x[:k]] *)
Definition slice_to {A : Type} (x : list A) (k : Z) : list A :=
  firstn (slice_bound (List.length x) k) x.

(** [x[k:]] *)
Definition slice_from {A : Type} (x : list A) (k : Z) : list A :=
  skipn (slice_bound (List.length x) k) x.

(** [int(valid_split * len(audio_paths))]. The fraction is taken as the
    rational it is written as; for [VALID_SPLIT = 0.1] the float product
    truncates to the same integer. *)
Definition num_val_samples (valid_split : Q) (total : nat) : Z :=
  py_int (valid_split * inject_Z (Z.of_nat total)).

(** [x[:-num_val_samples]] and [x[-num_val_samples:]] *)
Definition train_part {A : Type} (valid_split : Q) (x : list A) : list A :=
  slice_to x (- num_val_samples valid_split (List.length x)).

Definition valid_part {A : Type} (valid_split : Q) (x : list A) : list A :=
  slice_from x (- num_val_samples valid_split (List.length x)).

(** What the two [print] calls report as the sizes of the two parts. *)
Definition printed_train_size (valid_split : Q) (total : nat) : Z :=
  Z.of_nat total - num_val_samples valid_split total.

Definition printed_valid_size (valid_split : Q) (total : nat) : Z :=
  num_val_samples valid_split total.

(** ** Noise injection *)

Abbreviation Waveform := (list Q).

(** [tf.math.reduce_max] along the sample axis; [None] on an empty axis,
    where TensorFlow returns minus infinity. *)
Fixpoint reduce_max (x : list Q) : option Q :=
  match x with
  | [] => None
  | v :: rest =>
      match reduce_max rest with
      | None => Some v
      | Some m => Some (Qmax v m)
      end
  end.

(** A row of a float tensor: its finite values, or [NonFinite] when the
    row holds infinities or NaN (here: after a division by zero). *)
Inductive Row : Type :=
| Finite (samples : list Q)
| NonFinite.

Fixpoint zip_with {A B C : Type} (f : A -> B -> C) (x : list A) (y : list B) : list C :=
  match x, y with
  | a :: x', b :: y' => f a b :: zip_with f x' y'
  | _, _ => []
  end.

(** One row of [add_noise]: [prop] is [reduce_max(audio) /
    reduce_max(noise)], repeated along the row, and the result is
    [audio + noise * prop * scale]. IEEE division by zero gives an infinity
    or NaN, and then every product [noise * prop] is infinite or NaN. Both
    rows hold one second of samples, so they are added position by
    position. *)
Definition mix_row (scale : Q) (audio noise : Waveform) : Row :=
  match reduce_max audio, reduce_max noise with
  | Some ma, Some mn =>
      if Qeq_bool mn 0 then NonFinite
      else
        let prop := (ma / mn)%Q in
        Finite (zip_with (fun a n => (a + n * prop * scale)%Q) audio noise)
  | _, _ => NonFinite
  end.

(** [tf.gather(noises, tf_rnd, axis=0)]; an index out of range raises. *)
Fixpoint tf_gather {A : Type} (params : list A) (indices : list nat) : result (list A) :=
  match indices with
  | [] => Ok []
  | i :: rest =>
      match nth_error params i with
      | None => Raise InvalidArgumentError
      | Some p => ps <- tf_gather params rest ;; Ok (p :: ps)
      end
  end.

(** [mix_row] on a row of the batch that may already hold NaN, which
    every operation of [add_noise] propagates. *)
Definition mix (scale : Q) (audio : Row) (noise : Chunk) : Row :=
  match audio with
  | Finite a => mix_row scale a noise
  | NonFinite => NonFinite
  end.

(** [add_noise(audio, noises, scale)]. [tf_rnd] is the tensor the call of
    [tf.random.uniform] returns: one index per waveform of the batch, each
    in [0 .. noises.shape[0] - 1]. *)
Definition add_noise (audio : list Row) (noises : option (list Chunk))
    (tf_rnd : list nat) (scale : Q) : result (list Row) :=
  match noises with
  | Some pool =>
      noise <- tf_gather pool tf_rnd ;;
      Ok (zip_with (mix scale) audio noise)
  | None => Ok audio
  end.

(** The draws [tf.random.uniform] can return for a batch of [batch] rows
    and a pool of [pool] chunks. *)
Definition valid_draw (batch pool : nat) (tf_rnd : list nat) : Prop :=
  List.length tf_rnd = batch /\ Forall (fun i => i < pool) tf_rnd.

(** Peak absolute amplitude of a row. *)
Definition peak (x : list Q) : option Q := reduce_max (map Qabs x).

(** The spec's coefficient: the ratio of the maxima of the absolute sample
    values, and the row mixed with it. *)
Definition mix_row_abs (scale : Q) (audio noise : Waveform) : Row :=
  match peak audio, peak noise with
  | Some ma, Some mn =>
      if Qeq_bool mn 0 then NonFinite
      else
        let prop := (ma / mn)%Q in
        Finite (zip_with (fun a n => (a + n * prop * scale)%Q) audio noise)
  | _, _ => NonFinite
  end.

(** ** The two streams *)

Inductive MapFn : Type :=
| AddNoise (scale : Q)      (* [lambda x, y: (add_noise(x, noises, scale=...), y)] *)
| AudioToFft.               (* [lambda x, y: (audio_to_fft(x), y)] *)

Inductive DatasetOp : Type :=
| OpShuffle (buffer_size seed : nat)
| OpBatch (batch_size : nat)
| OpMap (f : MapFn)
| OpPrefetch.

(** The transformations chained on [paths_and_labels_to_dataset(...)], in
    the order the notebook applies them. *)
Definition train_ds : list DatasetOp :=
  [ OpShuffle (BATCH_SIZE * 8) SHUFFLE_SEED; OpBatch BATCH_SIZE;
    OpMap (AddNoise SCALE); OpMap AudioToFft; OpPrefetch ].

Definition valid_ds : list DatasetOp :=
  [ OpShuffle (32 * 8) SHUFFLE_SEED; OpBatch 32;
    OpMap AudioToFft; OpPrefetch ].

(** The stream of the demonstration cell; [audio_to_fft] is applied to its
    batches by hand afterwards. *)
Definition test_ds : list DatasetOp :=
  [ OpShuffle (BATCH_SIZE * 8) SHUFFLE_SEED; OpBatch BATCH_SIZE;
    OpMap (AddNoise SCALE) ].

Definition map_fns (ds : list DatasetOp) : list MapFn :=
  flat_map (fun op => match op with OpMap f => [f] | _ => [] end) ds.

Definition is_add_noise (f : MapFn) : bool :=
  match f with AddNoise _ => true | AudioToFft => false end.

Definition is_audio_to_fft (f : MapFn) : bool :=
  match f with AudioToFft => true | AddNoise _ => false end.

(** Does the stream inject noise before it takes the spectrum? *)
Fixpoint noise_before_fft (fs : list MapFn) : bool :=
  match fs with
  | [] => false
  | f :: rest =>
      (is_add_noise f && existsb is_audio_to_fft rest) || noise_before_fft rest
  end.

Section Streams.
(** The spectrum of one waveform, [tf.signal.fft] followed by [tf.math.abs]
    on the first half; its values are not rational, so the transform is
    taken as given. *)
Variable Spectrum : Type.
Variable audio_to_fft_row : Waveform -> Spectrum.

Inductive Features : Type :=
| Waves (rows : list Row)
| Spectra (rows : list (option Spectrum)).   (* [None]: NaN throughout *)

Definition audio_to_fft (rows : list Row) : list (option Spectrum) :=
  map (fun r => match r with
                | Finite w => Some (audio_to_fft_row w)
                | NonFinite => None
                end) rows.

(** One mapped function on the features of a batch. [add_noise] is
    written for waveforms, on spectra its shapes do not fit; no stream of
    the notebook maps anything after [audio_to_fft]. *)
Definition apply_map_fn (noises : list Chunk) (tf_rnd : list nat)
    (f : MapFn) (x : Features) : result Features :=
  match f, x with
  | AddNoise scale, Waves rows =>
      mixed <- add_noise rows (Some noises) tf_rnd scale ;; Ok (Waves mixed)
  | AudioToFft, Waves rows => Ok (Spectra (audio_to_fft rows))
  | _, Spectra _ => Raise InvalidArgumentError
  end.

Fixpoint apply_map_fns (noises : list Chunk) (tf_rnd : list nat)
    (fs : list MapFn) (x : Features) : result Features :=
  match fs with
  | [] => Ok x
  | f :: rest =>
      y <- apply_map_fn noises tf_rnd f x ;;
      apply_map_fns noises tf_rnd rest y
  end.

(** What the model is fed for one batch of decoded waveforms of stream
    [ds]. *)
Definition stream_batch (ds : list DatasetOp) (noises : list Chunk)
    (tf_rnd : list nat) (audio : list Waveform) : result Features :=
  apply_map_fns noises tf_rnd (map_fns ds) (Waves (map Finite audio)).
End Streams.

Arguments Waves {Spectrum} rows.
Arguments Spectra {Spectrum} rows.

(** ** Model definition *)

Module Net.
Local Open Scope R_scope.

(** A tensor of shape (steps, channels), and one of shape (features). *)
Definition Tensor2 : Type := list (list R).
Definition Tensor1 : Type := list R.

Definition sum (x : list R) : R := fold_right Rplus 0 x.

Definition at1 (x : Tensor1) (i : nat) : R := nth i x 0.
Definition at2 (x : Tensor2) (t c : nat) : R := nth c (nth t x []) 0.

Definition relu (v : R) : R := Rmax 0 v.

(** [keras.layers.Activation("relu")] *)
Definition Activation_relu (x : Tensor2) : Tensor2 := map (map relu) x.

(** Weights of a [Conv1D] layer: [kernel[d][c][f]] and [bias[f]]. *)
Record Conv1DWeights : Type := mkConv1D {
  conv_kernel : list (list (list R));
  conv_bias : list R
}.

Definition kernel_at (w : Conv1DWeights) (d c f : nat) : R :=
  nth f (nth c (nth d (conv_kernel w) []) []) 0.

(** [x[t + d - pad][c]], zero in the padding. *)
Definition padded_at (x : Tensor2) (pad t d c : nat) : R :=
  if (t + d <? pad)%nat then 0 else at2 x (t + d - pad) c.

(** [Conv1D(filters, kernel_size, padding="same")], stride 1:
    [kernel_size - 1] zeros are added, the smaller half in front. *)
Definition Conv1D (kernel_size : nat) (w : Conv1DWeights) (x : Tensor2) : Tensor2 :=
  let pad := ((kernel_size - 1) / 2)%nat in
  let channels := List.length (nth 0 x []) in
  map (fun t =>
    map (fun f =>
      at1 (conv_bias w) f +
      sum (map (fun d =>
        sum (map (fun c => padded_at x pad t d c * kernel_at w d c f)
                 (seq 0 channels)))
        (seq 0 kernel_size)))
      (seq 0 (List.length (conv_bias w))))
    (seq 0 (List.length x)).

(** [keras.layers.Add()([x, s])] *)
Definition Add (x s : Tensor2) : Tensor2 := zip_with (zip_with Rplus) x s.

(** [MaxPool1D(pool_size=2, strides=2)] *)
Definition MaxPool1D (x : Tensor2) : Tensor2 :=
  map (fun t => zip_with Rmax (nth (2 * t)%nat x []) (nth (2 * t + 1)%nat x []))
      (seq 0 (List.length x / 2)%nat).

(** [AveragePooling1D(pool_size=3, strides=3)] *)
Definition AveragePooling1D (x : Tensor2) : Tensor2 :=
  map (fun t =>
         zip_with (fun ab c => (ab + c) / 3)
           (zip_with Rplus (nth (3 * t)%nat x []) (nth (3 * t + 1)%nat x []))
           (nth (3 * t + 2)%nat x []))
      (seq 0 (List.length x / 3)%nat).

Definition Flatten (x : Tensor2) : Tensor1 := List.concat x.

(** Weights of a [Dense] layer: [kernel[i][j]] and [bias[j]]. *)
Record DenseWeights : Type := mkDense {
  dense_kernel : list (list R);
  dense_bias : list R
}.

(** The affine part of [Dense(units)]; [units] is the length of the bias. *)
Definition Dense_linear (w : DenseWeights) (x : Tensor1) : Tensor1 :=
  map (fun j =>
         at1 (dense_bias w) j +
         sum (map (fun i => at1 x i * at2 (dense_kernel w) i j)
                  (seq 0 (List.length x))))
      (seq 0 (List.length (dense_bias w))).

Definition Dense_relu (w : DenseWeights) (x : Tensor1) : Tensor1 :=
  map relu (Dense_linear w x).

(** The [softmax] activation along the last axis. *)
Definition softmax (z : Tensor1) : Tensor1 :=
  let e := map exp z in
  map (fun v => v / sum e) e.

Definition Dense_softmax (w : DenseWeights) (x : Tensor1) : Tensor1 :=
  softmax (Dense_linear w x).

(** Weights of one [residual_block]: the shortcut, the [conv_num - 1]
    convolutions of the loop, and the last convolution. *)
Record BlockWeights : Type := mkBlock {
  block_shortcut : Conv1DWeights;
  block_convs : list Conv1DWeights;
  block_last : Conv1DWeights
}.

Definition residual_block (w : BlockWeights) (x : Tensor2) : Tensor2 :=
  let s := Conv1D 1 (block_shortcut w) x in
  let x := fold_left (fun x c => Activation_relu (Conv1D 3 c x)) (block_convs w) x in
  let x := Conv1D 3 (block_last w) x in
  let x := Add x s in
  let x := Activation_relu x in
  MaxPool1D x.

(** The trainable weights of the model [build_model] returns. *)
Record Model : Type := mkModel {
  block1 : BlockWeights;
  block2 : BlockWeights;
  block3 : BlockWeights;
  block4 : BlockWeights;
  block5 : BlockWeights;
  dense1 : DenseWeights;
  dense2 : DenseWeights;
  output : DenseWeights
}.

Definition block_shape (filters conv_num : nat) (w : BlockWeights) : Prop :=
  List.length (conv_bias (block_shortcut w)) = filters /\
  List.length (block_convs w) = (conv_num - 1)%nat /\
  Forall (fun c => List.length (conv_bias c) = filters) (block_convs w) /\
  List.length (conv_bias (block_last w)) = filters.

(** The layer sizes [build_model(input_shape, num_classes)] fixes. *)
Definition built_by (num_classes : nat) (m : Model) : Prop :=
  block_shape 16 2 (block1 m) /\
  block_shape 32 2 (block2 m) /\
  block_shape 64 3 (block3 m) /\
  block_shape 128 3 (block4 m) /\
  block_shape 128 3 (block5 m) /\
  List.length (dense_bias (dense1 m)) = 256%nat /\
  List.length (dense_bias (dense2 m)) = 128%nat /\
  List.length (dense_bias (output m)) = num_classes.

(** The forward pass on one element of a batch. *)
Definition forward (m : Model) (inputs : Tensor2) : Tensor1 :=
  let x := residual_block (block1 m) inputs in
  let x := residual_block (block2 m) x in
  let x := residual_block (block3 m) x in
  let x := residual_block (block4 m) x in
  let x := residual_block (block5 m) x in
  let x := AveragePooling1D x in
  let x := Flatten x in
  let x := Dense_relu (dense1 m) x in
  let x := Dense_relu (dense2 m) x in
  Dense_softmax (output m) x.

(** The model on a batch: one output row per input row. *)
Definition predict (m : Model) (batch : list Tensor2) : list Tensor1 :=
  map (forward m) batch.

(** A categorical distribution over [n] classes. *)
Definition distribution (n : nat) (p : Tensor1) : Prop :=
  List.length p = n /\ Forall (fun v => 0 <= v) p /\ sum p = 1.
End Net.

(** ** Training *)

Inductive Monitor : Type :=
| val_loss_name        (* ["val_loss"] *)
| val_accuracy_name.   (* ["val_accuracy"] *)

(** The [logs] of an epoch, as far as the callbacks read them. *)
Record Logs : Type := mkLogs {
  val_loss : Q;
  val_accuracy : Q
}.

Definition get_monitor_value (m : Monitor) (logs : Logs) : Q :=
  match m with
  | val_loss_name => val_loss logs
  | val_accuracy_name => val_accuracy logs
  end.

(** [keras.callbacks.EarlyStopping]: the arguments the notebook can set.
    The others keep their defaults ([min_delta=0], [mode="auto"],
    [baseline=None], [start_from_epoch=0]). *)
Record EarlyStopping : Type := mkEarlyStopping {
  monitor : Monitor;
  patience : nat;
  restore_best_weights : bool
}.

(** [EarlyStopping(patience=10, restore_best_weights=True)]: [monitor] is
    not passed and keeps the default of the class, ["val_loss"]. *)
Definition earlystopping_cb : EarlyStopping :=
  {| monitor := val_loss_name; patience := 10; restore_best_weights := true |}.

(** The same callback watching [m] instead. *)
Definition earlystopping_on (m : Monitor) : EarlyStopping :=
  {| monitor := m; patience := 10; restore_best_weights := true |}.

Definition Qltb (x y : Q) : bool := negb (Qle_bool y x).

(** [mode="auto"]: the loss is to be minimised and the accuracy metric
    maximised; with [min_delta=0] an improvement is a strict one. *)
Definition monitor_op (m : Monitor) (current reference : Q) : bool :=
  match m with
  | val_loss_name => Qltb current reference
  | val_accuracy_name => Qltb reference current
  end.

Definition is_improvement (m : Monitor) (current : Q) (reference : option Q) : bool :=
  match reference with
  | None => true
  | Some r => monitor_op m current r
  end.

Section Fit.
(** The weights of the model, one epoch of training on [train_ds], and
    the evaluation on [valid_ds] that ends the epoch. *)
Variable Weights : Type.
Variable train_epoch : nat -> Weights -> Weights.
Variable evaluate : nat -> Weights -> Logs.

(** The fields of the callback and [model.stop_training]. *)
Record CallbackState : Type := mkCallbackState {
  wait : nat;
  best : option Q;
  best_weights : option Weights;
  best_epoch : nat;
  stopped_epoch : nat;
  stop_training : bool
}.

Definition on_train_begin : CallbackState :=
  {| wait := 0; best := None; best_weights := None; best_epoch := 0;
     stopped_epoch := 0; stop_training := false |}.

(** [EarlyStopping.on_epoch_end(epoch, logs)], with the weights of the
    model at that moment; epochs count from 0. *)
Definition on_epoch_end (cb : EarlyStopping) (epoch : nat) (logs : Logs)
    (weights : Weights) (st : CallbackState) : CallbackState :=
  let current := get_monitor_value (monitor cb) logs in
  let st :=
    match restore_best_weights cb, best_weights st with
    | true, None =>
        {| wait := wait st; best := best st; best_weights := Some weights;
           best_epoch := epoch; stopped_epoch := stopped_epoch st;
           stop_training := stop_training st |}
    | _, _ => st
    end in
  let waited := S (wait st) in
  if is_improvement (monitor cb) current (best st) then
    {| wait := 0; best := Some current;
       best_weights := if restore_best_weights cb then Some weights
                       else best_weights st;
       best_epoch := epoch; stopped_epoch := stopped_epoch st;
       stop_training := stop_training st |}
  else if (patience cb <=? waited) && (0 <? epoch) then
    {| wait := waited; best := best st; best_weights := best_weights st;
       best_epoch := best_epoch st; stopped_epoch := epoch;
       stop_training := true |}
  else
    {| wait := waited; best := best st; best_weights := best_weights st;
       best_epoch := best_epoch st; stopped_epoch := stopped_epoch st;
       stop_training := stop_training st |}.

(** [EarlyStopping.on_train_end]: the weights the model is left with. *)
Definition on_train_end (cb : EarlyStopping) (weights : Weights)
    (st : CallbackState) : Weights :=
  match restore_best_weights cb, best_weights st with
  | true, Some w => w
  | _, _ => weights
  end.

(** The epoch loop of [model.fit]: [remaining] epochs are left, [epoch]
    is the index of the next one. It returns the number of epochs run,
    the weights after the last one and the state of the callback. *)
Fixpoint fit_loop (cb : EarlyStopping) (remaining epoch : nat)
    (weights : Weights) (st : CallbackState) : nat * Weights * CallbackState :=
  match remaining with
  | 0 => (epoch, weights, st)
  | S remaining' =>
      let weights' := train_epoch epoch weights in
      let logs := evaluate epoch weights' in
      let st' := on_epoch_end cb epoch logs weights' st in
      if stop_training st' then (S epoch, weights', st')
      else fit_loop cb remaining' (S epoch) weights' st'
  end.

(** [model.fit(train_ds, epochs=..., validation_data=valid_ds,
    callbacks=[cb, ...])]: the number of epochs run and the weights the
    model holds afterwards. *)
Definition fit (cb : EarlyStopping) (epochs : nat) (initial : Weights)
  : nat * Weights :=
  let '(ran, weights, st) := fit_loop cb epochs 0 initial on_train_begin in
  (ran, on_train_end cb weights st).

(** The weights after [n] epochs of uninterrupted training, and the logs
    of the epoch with index [e] (the [e+1]-th epoch). *)
Fixpoint weights_after (n : nat) (initial : Weights) : Weights :=
  match n with
  | 0 => initial
  | S n' => train_epoch n' (weights_after n' initial)
  end.

Definition logs_of (initial : Weights) (e : nat) : Logs :=
  evaluate e (weights_after (S e) initial).
End Fit.

(** ** Concrete inputs used below *)

(** A noise file at the target rate that is shorter than one second. *)
Definition short_noise : Wav := mkWav [1 # 2; -1 # 4; 1 # 8]%Q SAMPLING_RATE.

(** Six seconds of noise at the target rate. *)
Definition six_seconds : Wav := mkWav (repeat (1 # 4)%Q (6 * SAMPLING_RATE)) SAMPLING_RATE.

(** Two noise files that were left at 44100 Hz and 8000 Hz. *)
Definition unresampled_files : list Wav :=
  [ mkWav [1 # 2; 1 # 4]%Q 44100; mkWav [1 # 8]%Q 8000 ].

(** Five clips of one speaker. *)
Definition five_clips : list string :=
  ["a.wav"; "b.wav"; "c.wav"; "d.wav"; "e.wav"]%string.

(** Two speakers with three and two clips (and a file that is no clip). *)
Definition two_speakers : list DirEntry :=
  [ mkDirEntry "ann" true ["1.wav"; "2.wav"; "notes.txt"; "3.wav"]%string;
    mkDirEntry "bob" true ["1.wav"; "2.wav"]%string ].

(** A small linear congruential generator, to run the shuffle on data. *)
Definition lcg : BitGenerator :=
  {| rng_state := nat;
     RandomState := fun seed => seed;
     random_interval := fun s max => (s mod (S max), (5 * s + 3) mod 97) |}.

(** A waveform whose peak is positive, a noise chunk whose peak is
    negative, and a chunk of digital silence. *)
Definition speech : list Q := [1 # 2; - (1 # 8)]%Q.
Definition rumble : list Q := [1 # 8; - (1)]%Q.
Definition silence : list Q := [0; 0]%Q.

(** A model of the shape [build_model] gives for [num_classes] classes,
    with all biases zero and empty kernels. *)
Definition zero_conv (filters : nat) : Net.Conv1DWeights :=
  Net.mkConv1D [] (repeat 0%R filters).

Definition zero_block (filters conv_num : nat) : Net.BlockWeights :=
  Net.mkBlock (zero_conv filters)
    (repeat (zero_conv filters) (conv_num - 1)) (zero_conv filters).

Definition zero_dense (units : nat) : Net.DenseWeights :=
  Net.mkDense [] (repeat 0%R units).

Definition zero_model (num_classes : nat) : Net.Model :=
  Net.mkModel (zero_block 16 2) (zero_block 32 2) (zero_block 64 3)
    (zero_block 128 3) (zero_block 128 3)
    (zero_dense 256) (zero_dense 128) (zero_dense num_classes).

(** A run, told by the number of epochs trained: the validation loss falls
    with every epoch, while the validation accuracy rises up to the twelfth
    epoch and is lower ever after. *)
Definition steady_train (epoch : nat) (trained : nat) : nat := S trained.

Definition steady_evaluate (epoch : nat) (trained : nat) : Logs :=
  {| val_loss := 1 # Pos.of_nat (S trained);
     val_accuracy := if trained <=? 12
                     then Z.of_nat trained # 20
                     else 1 # 2 |}.

(** A run whose validation loss is lowest after the twelfth epoch. *)
Definition plateau_evaluate (epoch : nat) (trained : nat) : Logs :=
  {| val_loss := if trained <=? 12
                 then Z.of_nat (20 - trained) # 20
                 else 1 # 2;
     val_accuracy := 1 # 2 |}.

(** ** Further notions used in the properties *)

(** What a noise file adds to the pool when no file raises: its chunks, or
    nothing for a file that is ignored. *)
Definition file_chunks (w : Wav) : list Chunk :=
  if wav_rate w =? SAMPLING_RATE
  then let slices := List.length (wav_samples w) / SAMPLING_RATE in
       pieces SAMPLING_RATE slices (firstn (slices * SAMPLING_RATE) (wav_samples w))
  else [].

(** A second of noise at the target rate followed by two files at other
    rates, and the same with a file that is too short. *)
Definition mixed_files : list Wav := six_seconds :: unresampled_files.
Definition files_with_short : list Wav := [six_seconds; short_noise].

(** A noise directory with one sub-directory and a stray file. *)
Definition noise_listing : list DirEntry :=
  [ mkDirEntry "other" true ["pink_noise.wav"; "README.md"]%string;
    mkDirEntry "stray.wav" false [] ].

Definition pink_noise_path : string :=
  path_join (path_join DATASET_NOISE_PATH "other") "pink_noise.wav".


Definition train_audio_paths (g : BitGenerator) (classes : list DirEntry) : list string :=
  train_part VALID_SPLIT (shuffled_paths g classes).

Definition train_labels (g : BitGenerator) (classes : list DirEntry) : list nat :=
  train_part VALID_SPLIT (shuffled_labels g classes).

Definition valid_audio_paths (g : BitGenerator) (classes : list DirEntry) : list string :=
  valid_part VALID_SPLIT (shuffled_paths g classes).

Definition valid_labels (g : BitGenerator) (classes : list DirEntry) : list nat :=
  valid_part VALID_SPLIT (shuffled_labels g classes).

(** The number of clips [collect_clips] takes from a class directory. *)
Definition clip_count (c : DirEntry) : nat :=
  List.length (filter (fun f => endswith f ".wav") (entry_listdir c)).

(** A speaker with twelve clips. *)
Definition one_speaker : list DirEntry :=
  [ mkDirEntry "ann" true
      ["01.wav"; "02.wav"; "03.wav"; "04.wav"; "05.wav"; "06.wav";
       "07.wav"; "08.wav"; "09.wav"; "10.wav"; "11.wav"; "12.wav"]%string ].

(** A noise chunk whose largest sample is its peak. *)
Definition hiss : list Q := [1; - (1 # 2)]%Q.

(** ** The spectral transform on real samples *)

Module Spectral.
Local Open Scope R_scope.

(** The angle [2 pi k n / N] of the discrete Fourier transform. *)
Definition angle (N k n : nat) : R := 2 * PI * INR k * INR n / INR N.

(** [tf.signal.fft] of a real row (the imaginary part of the input is
    [tf.zeros_like(audio)]): real and imaginary part of bin [k],
    [sum_n x[n] * exp(-2 pi i k n / N)]. *)
Definition fft_re (x : list R) (k : nat) : R :=
  Net.sum (map (fun n => nth n x 0 * cos (angle (List.length x) k n))
               (seq 0 (List.length x))).

Definition fft_im (x : list R) (k : nat) : R :=
  Net.sum (map (fun n => - (nth n x 0 * sin (angle (List.length x) k n)))
               (seq 0 (List.length x))).

Definition fft (x : list R) : list (R * R) :=
  map (fun k => (fft_re x k, fft_im x k)) (seq 0 (List.length x)).

(** [tf.math.abs] of a complex number. *)
Definition complex_abs (z : R * R) : R := sqrt (fst z * fst z + snd z * snd z).

(** [audio_to_fft]: the absolute values of the first half of the bins,
    [fft[:, : (audio.shape[1] // 2), :]]. *)
Definition audio_to_fft (audio : list (list R)) : list (list R) :=
  map (fun row => map complex_abs (firstn (List.length row / 2)%nat (fft row))) audio.
End Spectral.

(** ** The demonstration: predicted classes *)

Module Demo.
Import Net.
Local Open Scope R_scope.

(** The vector [Flatten] hands to the dense layers, and the values the
    last layer computes before its softmax. *)
Definition features (m : Model) (inputs : Tensor2) : Tensor1 :=
  Flatten (AveragePooling1D
    (residual_block (block5 m) (residual_block (block4 m)
      (residual_block (block3 m) (residual_block (block2 m)
        (residual_block (block1 m) inputs)))))).

Definition logits (m : Model) (inputs : Tensor2) : Tensor1 :=
  Dense_linear (output m)
    (Dense_relu (dense2 m) (Dense_relu (dense1 m) (features m inputs))).

(** A tensor of [steps] rows with [channels] values each. *)
Definition shape (steps channels : nat) (x : Tensor2) : Prop :=
  List.length x = steps /\ Forall (fun r => List.length r = channels) x.

(** [np.argmax] along the last axis: the first position of the largest
    value; [None] stands for the [ValueError] on an empty row. *)
Fixpoint argmax_from (best_i : nat) (best_v : R) (i : nat) (x : list R) : nat :=
  match x with
  | [] => best_i
  | v :: rest =>
      if Rlt_dec best_v v
      then argmax_from i v (S i) rest
      else argmax_from best_i best_v (S i) rest
  end.

Definition np_argmax (x : list R) : option nat :=
  match x with
  | [] => None
  | v :: rest => Some (argmax_from 0 v 1 rest)
  end.

(** [np.argmax(model.predict(ffts), axis=-1)] *)
Definition predicted_classes (m : Model) (ffts : list Tensor2) : list (option nat) :=
  map np_argmax (predict m ffts).
End Demo.

(** ** The checkpoint callback *)

(** [keras.callbacks.ModelCheckpoint(filepath, monitor=..., save_best_only=...)] *)
Record ModelCheckpoint : Type := mkModelCheckpoint {
  checkpoint_monitor : Monitor;
  save_best_only : bool
}.

(** [ModelCheckpoint(model_save_filename, monitor="val_accuracy",
    save_best_only=True)] *)
Definition mdlcheckpoint_cb : ModelCheckpoint :=
  {| checkpoint_monitor := val_accuracy_name; save_best_only := true |}.

Section Checkpoint.
Variable Weights : Type.
Variable train_epoch : nat -> Weights -> Weights.
Variable evaluate : nat -> Weights -> Logs.

(** The best value seen ([None] before the first epoch, where Keras holds
    an infinity) and the content of the file. *)
Record CheckpointState : Type := mkCheckpointState {
  checkpoint_best : option Q;
  saved_file : option Weights
}.

Definition checkpoint_begin : CheckpointState :=
  {| checkpoint_best := None; saved_file := None |}.

(** [ModelCheckpoint.on_epoch_end]: with [save_best_only] the model is
    written, over the previous file, when the monitored value improves. *)
Definition checkpoint_epoch_end (cb : ModelCheckpoint) (logs : Logs)
    (weights : Weights) (st : CheckpointState) : CheckpointState :=
  if save_best_only cb then
    let current := get_monitor_value (checkpoint_monitor cb) logs in
    if is_improvement (checkpoint_monitor cb) current (checkpoint_best st)
    then {| checkpoint_best := Some current; saved_file := Some weights |}
    else st
  else {| checkpoint_best := checkpoint_best st; saved_file := Some weights |}.

(** The callback after the first [n] epochs of a run from [initial]. *)
Fixpoint checkpoint_after (cb : ModelCheckpoint) (n : nat) (initial : Weights)
  : CheckpointState :=
  match n with
  | 0 => checkpoint_begin
  | S n' =>
      checkpoint_epoch_end cb
        (logs_of Weights train_epoch evaluate initial n')
        (weights_after Weights train_epoch (S n') initial)
        (checkpoint_after cb n' initial)
  end.

(** The file [model.fit(..., callbacks=[earlystopping, checkpoint])]
    leaves behind: the checkpoint callback sees every epoch that is run. *)
Definition saved_model (earlystopping : EarlyStopping) (checkpoint : ModelCheckpoint)
    (epochs : nat) (initial : Weights) : option Weights :=
  saved_file
    (checkpoint_after checkpoint
       (fst (fit Weights train_epoch evaluate earlystopping epochs initial))
       initial).
End Checkpoint.

(** ** Batches and the demonstration cell *)

Fixpoint batches_of {A : Type} (fuel batch_size : nat) (xs : list A) : list (list A) :=
  match fuel with
  | 0 => []
  | S fuel' =>
      match xs with
      | [] => []
      | _ :: _ => firstn batch_size xs :: batches_of fuel' batch_size (skipn batch_size xs)
      end
  end.

(** [ds.batch(batch_size)] on the elements a stream delivers, in their
    order: consecutive groups of [batch_size], the last one with what is
    left ([drop_remainder] is not set). A batch size of zero is refused. *)
Definition dataset_batch {A : Type} (batch_size : nat) (xs : list A)
  : result (list (list A)) :=
  if batch_size =? 0 then Raise InvalidArgumentError
  else Ok (batches_of (List.length xs) batch_size xs).

(** [a[rnd]] for an array [a] and an array [rnd] of indices:
    [None] stands for the [IndexError] of an index out of bounds. *)
Fixpoint np_take {A : Type} (a : list A) (rnd : list nat) : option (list A) :=
  match rnd with
  | [] => Some []
  | i :: rest =>
      match nth_error a i, np_take a rest with
      | Some v, Some vs => Some (v :: vs)
      | _, _ => None
      end
  end.

Definition SAMPLES_TO_DISPLAY : nat := 10.

(** The draws [np.random.randint(0, BATCH_SIZE, SAMPLES_TO_DISPLAY)] can
    return. *)
Definition demo_draw (rnd : list nat) : Prop :=
  List.length rnd = SAMPLES_TO_DISPLAY /\ Forall (fun i => i < BATCH_SIZE) rnd.

(** The rows the demonstration shows: [for audios, labels in
    test_ds.take(1)] takes the first batch of the stream, if there is one,
    and indexes it with [rnd]. [stream] is the test data in the order the
    shuffle delivers it. *)
Definition demo_rows {A : Type} (stream : list A) (rnd : list nat)
  : result (option (list A)) :=
  batches <- dataset_batch BATCH_SIZE stream ;;
  match batches with
  | [] => Ok (Some [])
  | audios :: _ => Ok (np_take audios rnd)
  end.

(** A noise chunk that lies entirely below zero. *)
Definition sunk : list Q := [- (1 # 4); - (1 # 2)]%Q.

(** * Properties *)

(** ** Facts about the noise bank *)

Lemma SAMPLING_RATE_pos : 0 < SAMPLING_RATE.
Proof. apply Nat.ltb_lt. vm_compute. reflexivity. Qed.

Lemma noise_paths_nil_iff (listing : list DirEntry) :
  noise_paths listing = [] <->
  forall d f, In d listing -> entry_isdir d = true ->
              In f (entry_listdir d) -> endswith f ".wav" = false.
Proof.
  induction listing as [|d rest IH]; simpl.
  - split; [intros _ d f [] | reflexivity].
  - split.
    + intros H. apply app_eq_nil in H. destruct H as [Hd Hrest].
      intros d' f [<- | Hin] Hdir Hf.
      * rewrite Hdir in Hd. unfold wav_files_in in Hd.
        apply map_eq_nil in Hd.
        destruct (endswith f ".wav") eqn:E; [|reflexivity].
        assert (Hin : In f (filter (fun f => endswith f ".wav") (entry_listdir d)))
          by (apply filter_In; auto).
        rewrite Hd in Hin. destruct Hin.
      * apply (proj1 IH Hrest d' f); assumption.
    + intros H.
      assert (Hrest : noise_paths rest = []).
      { apply IH. intros d' f Hin. apply H. right; assumption. }
      rewrite Hrest, app_nil_r.
      destruct (entry_isdir d) eqn:Hdir; [|reflexivity].
      unfold wav_files_in.
      destruct (filter (fun f => endswith f ".wav") (entry_listdir d)) as [|f fs] eqn:E;
        [reflexivity|].
      assert (Hin : In f (filter (fun f => endswith f ".wav") (entry_listdir d)))
        by (rewrite E; left; reflexivity).
      apply filter_In in Hin. destruct Hin as [Hin Hw].
      rewrite (H d f (or_introl eq_refl) Hdir Hin) in Hw. discriminate.
Qed.

(** C7. Noise-file discovery raises (a [RuntimeError]) exactly when no
    [.wav] file is found in any sub-directory of the noise directory; when
    at least one is found it raises nothing and hands on the paths found. *)
Theorem discover_noise_fatal_iff_none_found (listing : list DirEntry) :
  ((exists e, discover_noise listing = Raise e) <-> noise_paths listing = []) /\
  (discover_noise listing = Raise RuntimeError <->
   forall d f, In d listing -> entry_isdir d = true ->
               In f (entry_listdir d) -> endswith f ".wav" = false) /\
  (noise_paths listing <> [] -> discover_noise listing = Ok (noise_paths listing)).
Proof.
  unfold discover_noise.
  split; [|split].
  - destruct (noise_paths listing); split.
    + reflexivity.
    + intros _. exists RuntimeError. reflexivity.
    + intros [e He]. discriminate.
    + discriminate.
  - rewrite <- noise_paths_nil_iff.
    destruct (noise_paths listing); split; try reflexivity; discriminate.
  - destruct (noise_paths listing); [intros H; contradiction H|]; reflexivity.
Qed.

(** *** Chunking *)

Lemma pieces_length {A : Type} (size num : nat) (value : list A) :
  List.length (pieces size num value) = num.
Proof.
  revert value. induction num as [|num IH]; intros value; simpl; [|rewrite IH]; reflexivity.
Qed.

Lemma pieces_concat {A : Type} (size num : nat) (value : list A) :
  List.length value = num * size -> List.concat (pieces size num value) = value.
Proof.
  revert value. induction num as [|num IH]; intros value Hlen; simpl in *.
  - destruct value; [reflexivity | discriminate].
  - rewrite IH.
    + apply firstn_skipn.
    + rewrite length_skipn. lia.
Qed.

Lemma pieces_all_of_size {A : Type} (size num : nat) (value : list A) :
  List.length value = num * size ->
  Forall (fun c => List.length c = size) (pieces size num value).
Proof.
  revert value. induction num as [|num IH]; intros value Hlen; simpl in *.
  - constructor.
  - constructor.
    + rewrite length_firstn. lia.
    + apply IH. rewrite length_skipn. lia.
Qed.

Lemma tf_split_exact {A : Type} (value : list A) (num size : nat) :
  0 < num -> List.length value = num * size ->
  tf_split value num = Ok (pieces size num value).
Proof.
  intros Hnum Hlen. unfold tf_split.
  destruct (Nat.eqb_spec num 0) as [->|_]; [lia|].
  rewrite Hlen, (Nat.mul_comm num size), Nat.Div0.mod_mul, Nat.div_mul by lia.
  reflexivity.
Qed.

Lemma load_noise_sample_chunks (w : Wav) :
  wav_rate w = SAMPLING_RATE ->
  SAMPLING_RATE <= List.length (wav_samples w) ->
  let slices := List.length (wav_samples w) / SAMPLING_RATE in
  load_noise_sample w =
  Ok (Some (pieces SAMPLING_RATE slices
              (firstn (slices * SAMPLING_RATE) (wav_samples w)))).
Proof.
  intros Hrate Hlen slices. unfold load_noise_sample.
  rewrite Hrate, Nat.eqb_refl. fold slices.
  pose proof SAMPLING_RATE_pos as Hpos.
  assert (Hs : 0 < slices).
  { unfold slices. apply Nat.div_str_pos. lia. }
  assert (Hle : slices * SAMPLING_RATE <= List.length (wav_samples w)).
  { unfold slices. rewrite Nat.mul_comm. apply Nat.Div0.mul_div_le. }
  rewrite (tf_split_exact _ slices SAMPLING_RATE Hs).
  - reflexivity.
  - rewrite length_firstn. lia.
Qed.

(** C6, as the code has it. A noise source at the target rate that holds
    at least one second is cut into [floor(sample_count / SAMPLING_RATE)]
    chunks of [SAMPLING_RATE] samples each, whose concatenation is the
    first [slices * SAMPLING_RATE] samples of the source; six seconds give
    six chunks and lose no sample. *)
Theorem load_noise_sample_chunking (w : Wav) :
  wav_rate w = SAMPLING_RATE ->
  SAMPLING_RATE <= List.length (wav_samples w) ->
  exists chunks,
    load_noise_sample w = Ok (Some chunks) /\
    List.length chunks = List.length (wav_samples w) / SAMPLING_RATE /\
    Forall (fun c => List.length c = SAMPLING_RATE) chunks /\
    List.concat chunks = firstn (List.length chunks * SAMPLING_RATE) (wav_samples w) /\
    (List.length (wav_samples w) = 6 * SAMPLING_RATE ->
     List.length chunks = 6 /\ List.concat chunks = wav_samples w).
Proof.
  intros Hrate Hlen.
  pose proof SAMPLING_RATE_pos as Hpos.
  set (slices := List.length (wav_samples w) / SAMPLING_RATE).
  assert (Hle : slices * SAMPLING_RATE <= List.length (wav_samples w)).
  { unfold slices. rewrite Nat.mul_comm. apply Nat.Div0.mul_div_le. }
  assert (Hfl : List.length (firstn (slices * SAMPLING_RATE) (wav_samples w))
                = slices * SAMPLING_RATE).
  { rewrite length_firstn. lia. }
  exists (pieces SAMPLING_RATE slices (firstn (slices * SAMPLING_RATE) (wav_samples w))).
  split; [apply load_noise_sample_chunks; assumption|].
  rewrite pieces_length.
  split; [reflexivity|].
  split; [apply pieces_all_of_size; assumption|].
  split; [apply pieces_concat; assumption|].
  intros H6.
  assert (Hs : slices = 6).
  { unfold slices. rewrite H6. apply Nat.div_mul. lia. }
  split; [assumption|].
  rewrite pieces_concat by assumption.
  rewrite Hs, <- H6. apply firstn_all.
Qed.

Lemma six_seconds_length : List.length (wav_samples six_seconds) = 6 * SAMPLING_RATE.
Proof. apply repeat_length. Qed.

Lemma load_noise_sample_chunking_witness :
  exists chunks,
    load_noise_sample six_seconds = Ok (Some chunks) /\
    List.length chunks = List.length (wav_samples six_seconds) / SAMPLING_RATE /\
    Forall (fun c => List.length c = SAMPLING_RATE) chunks /\
    List.concat chunks
      = firstn (List.length chunks * SAMPLING_RATE) (wav_samples six_seconds) /\
    (List.length (wav_samples six_seconds) = 6 * SAMPLING_RATE ->
     List.length chunks = 6 /\ List.concat chunks = wav_samples six_seconds).
Proof.
  apply (load_noise_sample_chunking six_seconds).
  - reflexivity.
  - rewrite six_seconds_length. lia.
Defined.

(** A source at the target rate that is shorter than one second has
    [slices = 0], and [tf.split] into zero pieces raises: no list of zero
    chunks is returned. *)
Lemma load_noise_sample_short_source_raises :
  wav_rate short_noise = SAMPLING_RATE /\
  load_noise_sample short_noise = Raise InvalidArgumentError /\
  ~ (exists chunks,
       load_noise_sample short_noise = Ok (Some chunks) /\
       List.length chunks = List.length (wav_samples short_noise) / SAMPLING_RATE).
Proof.
  assert (H : load_noise_sample short_noise = Raise InvalidArgumentError)
    by (vm_compute; reflexivity).
  split; [reflexivity|]. split; [exact H|].
  intros [chunks [Hc _]]. rewrite H in Hc. discriminate.
Qed.

(** *** Pooling the chunks *)

Lemma load_noise_sample_skips (w : Wav) :
  wav_rate w <> SAMPLING_RATE -> load_noise_sample w = Ok None.
Proof.
  intros H. unfold load_noise_sample.
  destruct (Nat.eqb_spec (wav_rate w) SAMPLING_RATE); [contradiction|reflexivity].
Qed.

Lemma load_noise_sample_some (w : Wav) (s : list Chunk) :
  load_noise_sample w = Ok (Some s) ->
  wav_rate w = SAMPLING_RATE /\ SAMPLING_RATE <= List.length (wav_samples w).
Proof.
  unfold load_noise_sample.
  destruct (Nat.eqb_spec (wav_rate w) SAMPLING_RATE) as [Hr|Hr]; [|discriminate].
  intros H. split; [assumption|].
  pose proof SAMPLING_RATE_pos as Hpos.
  destruct (le_lt_dec SAMPLING_RATE (List.length (wav_samples w))) as [|Hlt]; [assumption|].
  rewrite (Nat.div_small _ _ Hlt) in H. discriminate.
Qed.

Lemma extend_noises_all_skipped (files : list Wav) (noises : list Chunk) :
  Forall (fun w => wav_rate w <> SAMPLING_RATE) files ->
  extend_noises files noises = Ok noises.
Proof.
  induction 1 as [|w rest Hw _ IH]; simpl; [reflexivity|].
  rewrite (load_noise_sample_skips w Hw). simpl. exact IH.
Qed.

Lemma extend_noises_grows (files : list Wav) (noises pool : list Chunk) :
  extend_noises files noises = Ok pool ->
  pool = noises \/
  exists w s, In w files /\ load_noise_sample w = Ok (Some s) /\ s <> [].
Proof.
  revert noises. induction files as [|w rest IH]; intros noises; simpl.
  - intros H. injection H as <-. left; reflexivity.
  - destruct (load_noise_sample w) as [sample|e] eqn:Hload; simpl; [|discriminate].
    intros H. apply IH in H.
    destruct H as [-> | (w' & s & Hin & Hl & Hs)].
    + destruct sample as [[|c s]|]; simpl; auto.
      right. exists w, (c :: s). repeat split; [left; reflexivity | assumption | discriminate].
    + right. exists w', s. repeat split; [right; assumption | assumption | assumption].
Qed.

(** The stack of an empty list of chunks does not fail: when every file
    is skipped, [tf.stack] returns the empty tensor and [noises] is bound
    to it. *)
Lemma stack_of_no_chunks_does_not_fail :
  Forall (fun w => wav_rate w <> SAMPLING_RATE) unresampled_files /\
  tf_stack (@nil (list Q)) = Ok [] /\
  build_noises unresampled_files = Ok [] /\
  forall e, build_noises unresampled_files <> Raise e.
Proof.
  assert (Hskip : Forall (fun w => wav_rate w <> SAMPLING_RATE) unresampled_files).
  { unfold unresampled_files.
    apply Forall_cons; [|apply Forall_cons; [|apply Forall_nil]];
      intros H; apply Nat.eqb_eq in H; vm_compute in H; discriminate. }
  assert (Hb : build_noises unresampled_files = Ok []).
  { unfold build_noises. rewrite (extend_noises_all_skipped _ [] Hskip). reflexivity. }
  split; [exact Hskip|]. split; [reflexivity|]. split; [exact Hb|].
  intros e. rewrite Hb. discriminate.
Qed.

(** C10, as the code has it. When every discovered noise file is skipped
    for its sample rate, [tf.stack] returns the empty tensor for the empty
    list of chunks, and the cell fails in the [print] that follows, which
    reads [noises.shape[1]]; and whenever the cell goes through, some file
    at the target rate with at least one second of samples contributed its
    chunks. *)
Theorem noise_cell_needs_a_contributing_file (files : list Wav) :
  (Forall (fun w => wav_rate w <> SAMPLING_RATE) files ->
   extend_noises files [] = Ok [] /\
   build_noises files = Ok [] /\
   noise_cell files = Raise IndexError) /\
  (forall pool, noise_cell files = Ok pool ->
     pool <> [] /\
     exists w, In w files /\ wav_rate w = SAMPLING_RATE /\
               SAMPLING_RATE <= List.length (wav_samples w)).
Proof.
  split.
  - intros Hskip. unfold noise_cell, build_noises.
    rewrite (extend_noises_all_skipped files [] Hskip). repeat split; reflexivity.
  - intros pool. unfold noise_cell, build_noises.
    destruct (extend_noises files []) as [noises|e] eqn:Hext; simpl; [|discriminate].
    destruct noises as [|v vs]; [simpl; discriminate|].
    simpl. destruct (forallb _ vs); simpl; [|discriminate].
    intros H. injection H as <-.
    split; [discriminate|].
    apply extend_noises_grows in Hext.
    destruct Hext as [Hnil | (w & s & Hin & Hl & _)]; [discriminate|].
    exists w. split; [assumption|]. exact (load_noise_sample_some w s Hl).
Qed.

Lemma noise_cell_needs_a_contributing_file_witness :
  unresampled_files <> [] /\
  extend_noises unresampled_files [] = Ok [] /\
  build_noises unresampled_files = Ok [] /\
  noise_cell unresampled_files = Raise IndexError.
Proof.
  split; [discriminate|].
  apply (proj1 (noise_cell_needs_a_contributing_file unresampled_files)).
  unfold unresampled_files.
  apply Forall_cons; [|apply Forall_cons; [|apply Forall_nil]];
    intros H; apply Nat.eqb_eq in H; vm_compute in H; discriminate.
Defined.

(** ** DatasetBuilder *)

(** *** The split *)

Lemma py_int_floor (q : Q) : (0 <= q)%Q -> py_int q = Qfloor q.
Proof.
  destruct q as [n d]. unfold Qle, py_int, Qfloor. simpl. intros H.
  apply Z.quot_div_nonneg; lia.
Qed.

Lemma num_val_samples_floor (valid_split : Q) (total : nat) :
  (0 <= valid_split)%Q ->
  num_val_samples valid_split total
  = Qfloor (valid_split * inject_Z (Z.of_nat total)).
Proof.
  intros H. unfold num_val_samples. apply py_int_floor.
  apply Qmult_le_0_compat; [assumption|].
  unfold Qle, inject_Z. simpl. lia.
Qed.


(** With at least one and at most [total] validation samples the split is
    the one the notebook prints. *)
Lemma split_sizes {A : Type} (valid_split : Q) (x : list A) :
  let total := List.length x in
  let num_val := num_val_samples valid_split total in
  (0 < num_val <= Z.of_nat total)%Z ->
  train_part valid_split x = firstn (total - Z.to_nat num_val) x /\
  valid_part valid_split x = skipn (total - Z.to_nat num_val) x /\
  List.length (train_part valid_split x) + List.length (valid_part valid_split x) = total /\
  Z.of_nat (List.length (valid_part valid_split x)) = num_val /\
  Z.of_nat (List.length (train_part valid_split x)) = printed_train_size valid_split total.
Proof.
  intros total num_val H.
  unfold train_part, valid_part, slice_to, slice_from, printed_train_size.
  fold total. fold num_val.
  assert (Hb : slice_bound total (- num_val) = total - Z.to_nat num_val).
  { unfold slice_bound. destruct (Z.ltb_spec (- num_val) 0); lia. }
  rewrite Hb, length_firstn, length_skipn. fold total.
  repeat split; lia.
Qed.

Lemma num_val_samples_7500 (total : nat) :
  Z.of_nat total = 7500%Z -> num_val_samples VALID_SPLIT total = 750%Z.
Proof. intros H. unfold num_val_samples. rewrite H. vm_compute. reflexivity. Qed.

(** The scenario of the notebook: 7500 clips give 6750 and 750. *)
Lemma split_of_7500 {A : Type} (x : list A) :
  Z.of_nat (List.length x) = 7500%Z ->
  Z.of_nat (List.length (train_part VALID_SPLIT x)) = 6750%Z /\
  Z.of_nat (List.length (valid_part VALID_SPLIT x)) = 750%Z.
Proof.
  intros Hlen.
  pose proof (split_sizes VALID_SPLIT x) as H. cbv zeta in H.
  rewrite (num_val_samples_7500 _ Hlen) in H.
  destruct H as (_ & _ & Hsum & Hv & _); lia.
Qed.

(** C4, at a collection too small to give a validation sample. For five
    clips [num_val_samples] is 0; [x[:-0]] is the empty list and [x[-0:]]
    the whole list, so all five clips are validation clips and none is a
    training clip, while the notebook prints 5 and 0. *)
Theorem split_of_five_clips :
  num_val_samples VALID_SPLIT (List.length five_clips) = 0%Z /\
  Qfloor (VALID_SPLIT * inject_Z (Z.of_nat (List.length five_clips))) = 0%Z /\
  train_part VALID_SPLIT five_clips = [] /\
  valid_part VALID_SPLIT five_clips = five_clips /\
  List.length (valid_part VALID_SPLIT five_clips) = 5 /\
  printed_train_size VALID_SPLIT (List.length five_clips) = 5%Z /\
  printed_valid_size VALID_SPLIT (List.length five_clips) = 0%Z.
Proof. vm_compute. repeat split; reflexivity. Qed.

(** *** The shuffle *)

Lemma set_nth_map {A B : Type} (f : A -> B) (i : nat) (v : A) (x : list A) :
  set_nth i (f v) (map f x) = map f (set_nth i v x).
Proof.
  revert i. induction x as [|h t IH]; intros [|i]; simpl; try reflexivity.
  rewrite IH. reflexivity.
Qed.

Lemma swap_map {A B : Type} (f : A -> B) (i j : nat) (x : list A) :
  swap i j (map f x) = map f (swap i j x).
Proof.
  unfold swap. rewrite !nth_error_map.
  destruct (nth_error x i) as [xi|]; simpl; [|reflexivity].
  destruct (nth_error x j) as [xj|]; simpl; [|reflexivity].
  rewrite !set_nth_map. reflexivity.
Qed.

Lemma set_nth_perm {A : Type} (j : nat) (v b : A) (x : list A) :
  nth_error x j = Some b -> Permutation (b :: set_nth j v x) (v :: x).
Proof.
  revert j. induction x as [|h t IH]; intros [|j] H; simpl in *; try discriminate.
  - injection H as ->. apply perm_swap.
  - rewrite perm_swap. rewrite (IH j H). apply perm_swap.
Qed.

Lemma nth_error_set_nth_same {A : Type} (i : nat) (v : A) (x : list A) :
  i < List.length x -> nth_error (set_nth i v x) i = Some v.
Proof.
  revert i. induction x as [|h t IH]; intros [|i] H; simpl in *; try lia.
  - reflexivity.
  - apply IH. lia.
Qed.

Lemma nth_error_set_nth_other {A : Type} (i j : nat) (v : A) (x : list A) :
  i <> j -> nth_error (set_nth i v x) j = nth_error x j.
Proof.
  revert i j. induction x as [|h t IH]; intros [|i] [|j] H; simpl; try reflexivity.
  - contradiction H; reflexivity.
  - apply IH. lia.
Qed.

Lemma set_nth_same {A : Type} (i : nat) (v : A) (x : list A) :
  nth_error x i = Some v -> set_nth i v x = x.
Proof.
  revert i. induction x as [|h t IH]; intros [|i] H; simpl in *; try discriminate.
  - injection H as ->. reflexivity.
  - rewrite (IH i H). reflexivity.
Qed.

Lemma set_nth_twice_perm {A : Type} (i j : nat) (xi xj : A) (x : list A) :
  nth_error x i = Some xi -> nth_error x j = Some xj ->
  Permutation (set_nth j xi (set_nth i xj x)) x.
Proof.
  revert i j. induction x as [|h t IH]; intros [|i] [|j] Hi Hj; simpl in *;
    try discriminate.
  - injection Hi as ->. injection Hj as ->. reflexivity.
  - injection Hi as ->. apply (set_nth_perm j xi xj t Hj).
  - injection Hj as ->. apply (set_nth_perm i xj xi t Hi).
  - constructor. apply IH; assumption.
Qed.

Lemma swap_perm {A : Type} (i j : nat) (x : list A) : Permutation (swap i j x) x.
Proof.
  unfold swap.
  destruct (nth_error x i) as [xi|] eqn:Hi; [|reflexivity].
  destruct (nth_error x j) as [xj|] eqn:Hj; [|reflexivity].
  apply set_nth_twice_perm; assumption.
Qed.

Section ShuffleFacts.
Variable g : BitGenerator.

Lemma shuffle_loop_map {A B : Type} (f : A -> B) (i : nat) (s : rng_state g)
    (x : list A) :
  shuffle_loop g i s (map f x)
  = (fst (shuffle_loop g i s x), map f (snd (shuffle_loop g i s x))).
Proof.
  revert s x. induction i as [|i IH]; intros s x; simpl; [reflexivity|].
  destruct (random_interval g s (S i)) as [j s'].
  rewrite swap_map. apply IH.
Qed.

(** The draws do not look at the elements: shuffling commutes with [map]. *)
Lemma shuffle_map {A B : Type} (f : A -> B) (seed : nat) (x : list A) :
  shuffle g seed (map f x) = map f (shuffle g seed x).
Proof.
  unfold shuffle. rewrite length_map, shuffle_loop_map. reflexivity.
Qed.

Lemma shuffle_loop_perm {A : Type} (i : nat) (s : rng_state g) (x : list A) :
  Permutation (snd (shuffle_loop g i s x)) x.
Proof.
  revert s x. induction i as [|i IH]; intros s x; simpl; [reflexivity|].
  destruct (random_interval g s (S i)) as [j s'].
  rewrite IH. apply swap_perm.
Qed.

Lemma shuffle_perm {A : Type} (seed : nat) (x : list A) :
  Permutation (shuffle g seed x) x.
Proof. apply shuffle_loop_perm. Qed.
End ShuffleFacts.

Lemma map_nth_seq {A : Type} (d : A) (x : list A) :
  map (fun k => nth k x d) (seq 0 (List.length x)) = x.
Proof.
  induction x as [|h t IH]; simpl; [reflexivity|].
  rewrite <- seq_shift, map_map. simpl. rewrite IH. reflexivity.
Qed.

Lemma collect_clips_lengths (label : nat) (classes : list DirEntry) :
  List.length (fst (collect_clips label classes))
  = List.length (snd (collect_clips label classes)).
Proof.
  revert label. induction classes as [|c rest IH]; intros label; simpl; [reflexivity|].
  specialize (IH (S label)).
  destruct (collect_clips (S label) rest) as [ps ls]. simpl in *.
  rewrite !length_app, repeat_length, IH. reflexivity.
Qed.

Lemma paths_labels_lengths (classes : list DirEntry) :
  List.length (labels classes) = List.length (audio_paths classes).
Proof. symmetry. apply collect_clips_lengths. Qed.

Lemma shuffle_by_permutation (g : BitGenerator) {A : Type} (d : A) (seed : nat)
    (x : list A) :
  shuffle g seed x = map (fun k => nth k x d) (permutation_of g seed (List.length x)).
Proof.
  unfold permutation_of. rewrite <- shuffle_map, map_nth_seq. reflexivity.
Qed.

Lemma permutation_of_lt (g : BitGenerator) (seed n k : nat) :
  In k (permutation_of g seed n) -> k < n.
Proof.
  intros H.
  apply (Permutation_in _ (shuffle_perm g seed (seq 0 n))) in H.
  apply in_seq in H. lia.
Qed.

(** C5. The two shuffles, each from a generator freshly seeded with
    [SHUFFLE_SEED], apply one and the same permutation [sigma] of the
    positions to the paths and to the labels; so the path and the label at
    a position [i] after the shuffle are the path and the label of one
    original clip, the one at position [sigma i]. *)
Theorem shuffle_keeps_paths_and_labels_aligned (g : BitGenerator)
    (classes : list DirEntry) :
  let n := List.length (audio_paths classes) in
  exists sigma : list nat,
    Permutation sigma (seq 0 n) /\
    shuffled_paths g classes = map (fun k => nth k (audio_paths classes) ""%string) sigma /\
    shuffled_labels g classes = map (fun k => nth k (labels classes) 0) sigma /\
    forall i, i < n ->
      exists k, k < n /\
        nth_error sigma i = Some k /\
        nth_error (shuffled_paths g classes) i = nth_error (audio_paths classes) k /\
        nth_error (shuffled_labels g classes) i = nth_error (labels classes) k.
Proof.
  intros n.
  pose proof (paths_labels_lengths classes) as Hlen. fold n in Hlen.
  set (sigma := permutation_of g SHUFFLE_SEED n).
  assert (Hperm : Permutation sigma (seq 0 n)) by apply shuffle_perm.
  assert (Hp : shuffled_paths g classes
               = map (fun k => nth k (audio_paths classes) ""%string) sigma).
  { unfold shuffled_paths. apply shuffle_by_permutation. }
  assert (Hl : shuffled_labels g classes
               = map (fun k => nth k (labels classes) 0) sigma).
  { unfold shuffled_labels, sigma. rewrite <- Hlen. apply shuffle_by_permutation. }
  exists sigma. repeat split; try assumption.
  intros i Hi.
  assert (Hsl : List.length sigma = n).
  { rewrite (Permutation_length Hperm). apply length_seq. }
  destruct (nth_error sigma i) as [k|] eqn:Hk.
  - assert (Hkn : k < n).
    { apply (permutation_of_lt g SHUFFLE_SEED). eapply nth_error_In. exact Hk. }
    exists k. split; [assumption|]. split; [reflexivity|].
    rewrite Hp, Hl, !nth_error_map, Hk. simpl.
    split; symmetry; apply nth_error_nth'; lia.
  - apply nth_error_None in Hk. lia.
Qed.

Lemma shuffle_keeps_paths_and_labels_aligned_witness :
  exists k, k < 5 /\
    nth_error (shuffled_paths lcg two_speakers) 1 = nth_error (audio_paths two_speakers) k /\
    nth_error (shuffled_labels lcg two_speakers) 1 = nth_error (labels two_speakers) k.
Proof.
  destruct (shuffle_keeps_paths_and_labels_aligned lcg two_speakers)
    as (sigma & _ & _ & _ & H).
  destruct (H 1) as (k & Hk & _ & Hp & Hl).
  - vm_compute. lia.
  - exists k. split; [exact Hk|]. split; assumption.
Defined.

(** ** AugmentAndTransform *)

(** *** Maxima *)

Lemma reduce_max_ge (x : list Q) (m : Q) :
  reduce_max x = Some m -> forall v, In v x -> (v <= m)%Q.
Proof.
  revert m. induction x as [|h t IH]; intros m H v Hin; [destruct Hin|].
  simpl in H. destruct (reduce_max t) as [mt|] eqn:Ht.
  - injection H as <-. destruct Hin as [<- | Hin].
    + apply Q.le_max_l.
    + apply Qle_trans with mt; [apply (IH mt eq_refl v Hin) | apply Q.le_max_r].
  - injection H as <-. destruct Hin as [<- | Hin]; [apply Qle_refl|].
    destruct t; [destruct Hin | simpl in Ht; destruct (reduce_max t); discriminate].
Qed.

Lemma reduce_max_some (x : list Q) : x <> [] -> exists m, reduce_max x = Some m.
Proof.
  destruct x as [|h t]; [intros H; contradiction H; reflexivity|]. intros _.
  simpl. destruct (reduce_max t); eexists; reflexivity.
Qed.

Lemma reduce_max_in (x : list Q) (m : Q) :
  reduce_max x = Some m -> exists v, In v x /\ (v == m)%Q.
Proof.
  revert m. induction x as [|h t IH]; intros m H; [discriminate|].
  simpl in H. destruct (reduce_max t) as [mt|] eqn:Ht.
  - injection H as <-.
    destruct (Q.max_spec h mt) as [[_ E] | [_ E]].
    + destruct (IH mt eq_refl) as (v & Hin & Hv).
      exists v. split; [right; assumption|]. rewrite E. exact Hv.
    + exists h. split; [left; reflexivity|]. rewrite E. reflexivity.
  - injection H as <-. exists h. split; [left; reflexivity | reflexivity].
Qed.

Lemma peak_ge (x : list Q) (m : Q) :
  peak x = Some m -> forall v, In v x -> (Qabs v <= m)%Q.
Proof.
  intros H v Hin. apply (reduce_max_ge _ m H). apply in_map. exact Hin.
Qed.

Lemma peak_nonneg (x : list Q) (m : Q) : peak x = Some m -> (0 <= m)%Q.
Proof.
  intros H. destruct (reduce_max_in _ m H) as (v & Hin & Hv).
  apply in_map_iff in Hin. destruct Hin as (u & <- & _).
  rewrite <- Hv. apply Qabs_nonneg.
Qed.

Lemma in_zip_with {A B C : Type} (f : A -> B -> C) (x : list A) (y : list B) (c : C) :
  In c (zip_with f x y) -> exists a b, In a x /\ In b y /\ c = f a b.
Proof.
  revert y. induction x as [|a x IH]; intros [|b y] H; simpl in H;
    try contradiction.
  destruct H as [<- | H].
  - exists a, b. repeat split; left; reflexivity.
  - destruct (IH y H) as (a' & b' & Ha & Hb & E).
    exists a', b'. repeat split; [right | right | ]; assumption.
Qed.

(** *** Noise injection: the peak of the mixture *)

Lemma Qeq_bool_false (x y : Q) : Qeq_bool x y = false <-> ~ (x == y)%Q.
Proof.
  split.
  - intros H E. apply Qeq_bool_iff in E. congruence.
  - intros H. destruct (Qeq_bool x y) eqn:E; [|reflexivity].
    apply Qeq_bool_iff in E. contradiction.
Qed.

(** With the coefficient of the spec, the ratio of the two peaks, the
    noise term peaks at [scale * peak(audio)] and every mixed sample stays
    within [peak(audio) + scale * peak(audio)]. *)
Lemma mix_row_abs_bound (scale : Q) (audio noise : list Q) (ma mn : Q) :
  (0 <= scale)%Q ->
  peak audio = Some ma -> peak noise = Some mn -> ~ (mn == 0)%Q ->
  exists mixed,
    mix_row_abs scale audio noise = Finite mixed /\
    forall v, In v mixed -> (Qabs v <= ma + scale * ma)%Q.
Proof.
  intros Hs Ha Hn Hmn. unfold mix_row_abs. rewrite Ha, Hn.
  rewrite (proj2 (Qeq_bool_false mn 0) Hmn).
  eexists. split; [reflexivity|].
  intros v Hv. apply in_zip_with in Hv. destruct Hv as (a & n & Hina & Hinn & ->).
  pose proof (peak_ge _ _ Ha a Hina) as Hale.
  pose proof (peak_ge _ _ Hn n Hinn) as Hnle.
  pose proof (peak_nonneg _ _ Ha) as Hma.
  pose proof (peak_nonneg _ _ Hn) as Hmn0.
  assert (Hpos : (0 < mn)%Q).
  { apply Qle_lteq in Hmn0. destruct Hmn0 as [H|H]; [assumption|].
    contradiction Hmn. symmetry. assumption. }
  eapply Qle_trans; [apply Qabs_triangle|].
  apply Qplus_le_compat; [assumption|].
  rewrite !Qabs_Qmult.
  assert (Hprop : (0 <= ma / mn)%Q).
  { apply Qle_shift_div_l; [assumption|]. rewrite Qmult_0_l. assumption. }
  rewrite (Qabs_pos (ma / mn) Hprop), (Qabs_pos scale Hs).
  assert (E : (scale * ma == mn * (ma / mn) * scale)%Q) by (field; assumption).
  rewrite E.
  apply Qmult_le_compat_r; [|assumption].
  apply Qmult_le_compat_r; assumption.
Qed.

(** Where both maxima are the peaks (the largest sample of each row is
    also the largest in absolute value), the coefficient of the code is the
    one of the spec. *)
Lemma mix_row_is_mix_row_abs (scale : Q) (audio noise : list Q) :
  reduce_max audio = peak audio -> reduce_max noise = peak noise ->
  mix_row scale audio noise = mix_row_abs scale audio noise.
Proof.
  intros Ha Hn. unfold mix_row, mix_row_abs. rewrite Ha, Hn. reflexivity.
Qed.

(** C1, at a noise chunk whose largest sample is not its peak. The code
    takes the maxima of the signed samples: for [speech] (maximum and peak
    1/2) against [rumble] (maximum 1/8, peak 1) the coefficient is 4 where
    the ratio of the peaks is 1/2, and the mixture peaks at 17/8, above
    [1/2 + SCALE * 1/2 = 3/4]; with the ratio of the peaks it would peak
    at 17/32. *)
Theorem add_noise_signed_maximum_breaks_bound :
  reduce_max speech = Some (1 # 2)%Q /\ peak speech = Some (1 # 2)%Q /\
  reduce_max rumble = Some (1 # 8)%Q /\ peak rumble = Some 1%Q /\
  exists mixed p q,
    add_noise [Finite speech] (Some [rumble]) [0] SCALE = Ok [Finite mixed] /\
    Forall2 Qeq mixed [3 # 4; - (17 # 8)]%Q /\
    peak mixed = Some p /\ (p == 17 # 8)%Q /\
    ((1 # 2) + SCALE * (1 # 2) < p)%Q /\
    (exists ideal, mix_row_abs SCALE speech rumble = Finite ideal /\
                   peak ideal = Some q /\ (q == 17 # 32)%Q).
Proof.
  repeat (split; [vm_compute; reflexivity|]).
  eexists. eexists. eexists.
  split; [vm_compute; reflexivity|].
  split; [repeat constructor|].
  split; [vm_compute; reflexivity|].
  split; [vm_compute; reflexivity|].
  split; [vm_compute; reflexivity|].
  eexists. split; [vm_compute; reflexivity|].
  split; vm_compute; reflexivity.
Qed.

(** *** Noise injection: the division *)

Lemma mix_row_zero_max (scale : Q) (audio noise : list Q) (mn : Q) :
  reduce_max noise = Some mn -> (mn == 0)%Q -> mix_row scale audio noise = NonFinite.
Proof.
  intros Hn Hz. unfold mix_row. rewrite Hn.
  destruct (reduce_max audio); [|reflexivity].
  rewrite (proj2 (Qeq_bool_iff mn 0) Hz). reflexivity.
Qed.

Lemma mix_row_finite (scale : Q) (audio noise : list Q) (mn : Q) :
  audio <> [] -> reduce_max noise = Some mn -> ~ (mn == 0)%Q ->
  exists mixed, mix_row scale audio noise = Finite mixed.
Proof.
  intros Ha Hn Hz. unfold mix_row.
  destruct (reduce_max_some audio Ha) as [ma ->]. rewrite Hn.
  rewrite (proj2 (Qeq_bool_false mn 0) Hz). eexists. reflexivity.
Qed.

(** A finite row was divided by a maximum other than zero. *)
Lemma mix_row_finite_inv (scale : Q) (audio noise mixed : list Q) :
  mix_row scale audio noise = Finite mixed ->
  exists mn, reduce_max noise = Some mn /\ ~ (mn == 0)%Q.
Proof.
  unfold mix_row.
  destruct (reduce_max audio); [|discriminate].
  destruct (reduce_max noise) as [mn|]; [|discriminate].
  destruct (Qeq_bool mn 0) eqn:E; [discriminate|].
  intros _. exists mn. split; [reflexivity | apply Qeq_bool_false; assumption].
Qed.

Lemma tf_gather_in_range {A : Type} (params : list A) (indices : list nat) :
  Forall (fun i => i < List.length params) indices ->
  exists gathered,
    tf_gather params indices = Ok gathered /\
    List.length gathered = List.length indices /\
    forall i k, nth_error indices i = Some k ->
                nth_error gathered i = nth_error params k.
Proof.
  induction 1 as [|k rest Hk _ IH]; simpl.
  - exists []. repeat split. intros [|i] k H; discriminate.
  - destruct (nth_error params k) as [p|] eqn:Hp.
    + destruct IH as (gathered & -> & Hlen & Hnth). simpl.
      exists (p :: gathered). repeat split; [simpl; congruence|].
      intros [|i] k' H; simpl in *.
      * injection H as <-. symmetry. assumption.
      * apply Hnth. assumption.
    + apply nth_error_None in Hp. lia.
Qed.

Lemma nth_error_zip_with {A B C : Type} (f : A -> B -> C) (x : list A) (y : list B)
    (i : nat) (a : A) (b : B) :
  nth_error x i = Some a -> nth_error y i = Some b ->
  nth_error (zip_with f x y) i = Some (f a b).
Proof.
  revert x y. induction i as [|i IH]; intros [|a' x] [|b' y] Ha Hb; simpl in *;
    try discriminate.
  - congruence.
  - apply IH; assumption.
Qed.

Lemma zip_with_length {A B C : Type} (f : A -> B -> C) (x : list A) (y : list B) :
  List.length x = List.length y -> List.length (zip_with f x y) = List.length x.
Proof.
  revert y. induction x as [|a x IH]; intros [|b y] H; simpl in *; try lia.
  rewrite IH; lia.
Qed.

Lemma zip_with_Forall {A B C : Type} (f : A -> B -> C) (P : C -> Prop)
    (x : list A) (y : list B) :
  (forall a b, In a x -> In b y -> P (f a b)) -> Forall P (zip_with f x y).
Proof.
  intros H. apply Forall_forall. intros c Hc.
  apply in_zip_with in Hc. destruct Hc as (a & b & Ha & Hb & ->). auto.
Qed.

Lemma tf_gather_members {A : Type} (params : list A) (indices : list nat)
    (gathered : list A) :
  tf_gather params indices = Ok gathered -> forall p, In p gathered -> In p params.
Proof.
  revert gathered. induction indices as [|k rest IH]; intros gathered; simpl.
  - intros H. injection H as <-. intros p [].
  - destruct (nth_error params k) as [p0|] eqn:Hp; [|discriminate].
    destruct (tf_gather params rest) as [ps|e]; simpl; [|discriminate].
    intros H. injection H as <-. intros p [<- | Hin].
    + eapply nth_error_In. exact Hp.
    + apply (IH ps eq_refl). assumption.
Qed.

(** Where no chunk of the pool has maximum zero, every draw gives finite
    rows. *)
Lemma add_noise_finite_when_maxima_nonzero (noises : list (list Q)) (scale : Q) :
  Forall (fun n => exists mn, reduce_max n = Some mn /\ ~ (mn == 0)%Q) noises ->
  forall audio tf_rnd,
    valid_draw (List.length audio) (List.length noises) tf_rnd ->
    Forall (fun r => exists a, r = Finite a /\ a <> []) audio ->
    exists rows, add_noise audio (Some noises) tf_rnd scale = Ok rows /\
                 List.length rows = List.length audio /\
                 Forall (fun r => exists mixed, r = Finite mixed) rows.
Proof.
  intros Hnz audio tf_rnd [Hlen Hrange] Haudio.
  destruct (tf_gather_in_range noises tf_rnd Hrange) as (noise & Hg & Hgl & _).
  unfold add_noise. rewrite Hg. simpl. eexists. split; [reflexivity|].
  split; [apply zip_with_length; congruence|].
  apply zip_with_Forall. intros r n Hr Hn.
  rewrite Forall_forall in Haudio. destruct (Haudio r Hr) as (a & -> & Hne).
  rewrite Forall_forall in Hnz.
  destruct (Hnz n (tf_gather_members _ _ _ Hg n Hn)) as (mn & Hmax & Hz).
  simpl. apply (mix_row_finite scale a n mn Hne Hmax Hz).
Qed.

(** A pool whose only chunk lies below zero has no strictly positive
    maximum, and yet the division is defined for every batch and every
    draw: strictly positive maxima are not needed for it. *)
Lemma negative_maximum_divides_safely :
  reduce_max sunk = Some (- (1 # 4))%Q /\
  ~ (0 < - (1 # 4))%Q /\
  forall (audio : list Row) (tf_rnd : list nat) (scale : Q),
    valid_draw (List.length audio) 1 tf_rnd ->
    Forall (fun r => exists a, r = Finite a /\ a <> []) audio ->
    exists rows, add_noise audio (Some [sunk]) tf_rnd scale = Ok rows /\
                 List.length rows = List.length audio /\
                 Forall (fun r => exists mixed, r = Finite mixed) rows.
Proof.
  split; [reflexivity|]. split; [intros H; discriminate H|].
  intros audio tf_rnd scale.
  apply (add_noise_finite_when_maxima_nonzero [sunk] scale).
  constructor; [|constructor].
  exists (- (1 # 4))%Q. split; [reflexivity|].
  intros H. apply Qeq_bool_iff in H. discriminate.
Qed.

(** C9, as the code has it. [add_noise] divides by the maximum of the
    drawn noise chunk without a test. (1) Whenever the chunk drawn for row
    [i] has maximum zero, row [i] of the result is not finite. (2) If
    every chunk of the pool has a strictly positive maximum, every draw
    gives finite rows throughout. (3) A finite row was mixed with a chunk
    of non-zero maximum, and a pool that holds a chunk of maximum zero has
    a draw that leaves no row of a batch finite. (4) The division is safe
    exactly when no chunk of the pool has maximum zero: if every chunk has
    a non-zero maximum, positive or negative, every draw gives finite rows
    throughout. *)
Theorem add_noise_division_unguarded (noises : list (list Q)) (scale : Q) :
  (forall audio tf_rnd i a k n mn,
      valid_draw (List.length audio) (List.length noises) tf_rnd ->
      nth_error audio i = Some (Finite a) ->
      nth_error tf_rnd i = Some k -> nth_error noises k = Some n ->
      reduce_max n = Some mn -> (mn == 0)%Q ->
      exists rows, add_noise audio (Some noises) tf_rnd scale = Ok rows /\
                   nth_error rows i = Some NonFinite) /\
  (Forall (fun n => exists mn, reduce_max n = Some mn /\ (0 < mn)%Q) noises ->
   forall audio tf_rnd,
      valid_draw (List.length audio) (List.length noises) tf_rnd ->
      Forall (fun r => exists a, r = Finite a /\ a <> []) audio ->
      exists rows, add_noise audio (Some noises) tf_rnd scale = Ok rows /\
                   List.length rows = List.length audio /\
                   Forall (fun r => exists mixed, r = Finite mixed) rows) /\
  (forall audio tf_rnd rows i a k n mixed,
      add_noise audio (Some noises) tf_rnd scale = Ok rows ->
      nth_error audio i = Some (Finite a) ->
      nth_error tf_rnd i = Some k -> nth_error noises k = Some n ->
      nth_error rows i = Some (Finite mixed) ->
      exists mn, reduce_max n = Some mn /\ ~ (mn == 0)%Q) /\
  (forall k n mn audio,
      nth_error noises k = Some n -> reduce_max n = Some mn -> (mn == 0)%Q ->
      let tf_rnd := repeat k (List.length audio) in
      valid_draw (List.length audio) (List.length noises) tf_rnd /\
      exists rows, add_noise audio (Some noises) tf_rnd scale = Ok rows /\
                   List.length rows = List.length audio /\
                   Forall (fun r => r = NonFinite) rows) /\
  (Forall (fun n => exists mn, reduce_max n = Some mn /\ ~ (mn == 0)%Q) noises ->
   forall audio tf_rnd,
      valid_draw (List.length audio) (List.length noises) tf_rnd ->
      Forall (fun r => exists a, r = Finite a /\ a <> []) audio ->
      exists rows, add_noise audio (Some noises) tf_rnd scale = Ok rows /\
                   List.length rows = List.length audio /\
                   Forall (fun r => exists mixed, r = Finite mixed) rows).
Proof.
  split; [|split; [|split; [|split]]].
  - intros audio tf_rnd i a k n mn [Hlen Hrange] Ha Hk Hn Hmax Hz.
    destruct (tf_gather_in_range noises tf_rnd Hrange) as (noise & Hg & _ & Hnth).
    unfold add_noise. rewrite Hg. simpl. eexists. split; [reflexivity|].
    rewrite (nth_error_zip_with _ _ _ i (Finite a) n Ha).
    + simpl. rewrite (mix_row_zero_max scale a n mn Hmax Hz). reflexivity.
    + rewrite (Hnth i k Hk). assumption.
  - intros Hpos audio tf_rnd [Hlen Hrange] Haudio.
    destruct (tf_gather_in_range noises tf_rnd Hrange) as (noise & Hg & Hgl & _).
    unfold add_noise. rewrite Hg. simpl. eexists. split; [reflexivity|].
    split; [apply zip_with_length; congruence|].
    apply zip_with_Forall. intros r n Hr Hn.
    rewrite Forall_forall in Haudio. destruct (Haudio r Hr) as (a & -> & Hne).
    rewrite Forall_forall in Hpos.
    destruct (Hpos n (tf_gather_members _ _ _ Hg n Hn)) as (mn & Hmax & Hlt).
    simpl. apply (mix_row_finite scale a n mn Hne Hmax).
    intros E. rewrite E in Hlt. apply (Qlt_irrefl 0). assumption.
  - intros audio tf_rnd rows i a k n mixed Hadd Ha Hk Hn Hrow.
    unfold add_noise in Hadd.
    destruct (tf_gather noises tf_rnd) as [noise|e] eqn:Hg; simpl in Hadd; [|discriminate].
    injection Hadd as <-.
    assert (Hnoise : nth_error noise i = Some n).
    { clear Hrow Ha. revert i noise Hg Hk.
      induction tf_rnd as [|k' rest IH]; intros [|i] noise Hg Hk; simpl in *;
        try discriminate.
      - injection Hk as ->. rewrite Hn in Hg.
        destruct (tf_gather noises rest); simpl in Hg; [|discriminate].
        injection Hg as <-. reflexivity.
      - destruct (nth_error noises k'); [|discriminate].
        destruct (tf_gather noises rest) as [ps|] eqn:Hps; simpl in Hg; [|discriminate].
        injection Hg as <-. simpl. apply (IH i ps eq_refl Hk). }
    rewrite (nth_error_zip_with _ _ _ i (Finite a) n Ha Hnoise) in Hrow.
    injection Hrow as Hrow. simpl in Hrow.
    apply (mix_row_finite_inv scale a n mixed Hrow).
  - intros k n mn audio Hn Hmax Hz tf_rnd.
    assert (Hk : k < List.length noises).
    { apply nth_error_Some. rewrite Hn. discriminate. }
    assert (Hdraw : valid_draw (List.length audio) (List.length noises) tf_rnd).
    { split; [apply repeat_length|].
      apply Forall_forall. intros j Hj. apply repeat_spec in Hj. subst j. assumption. }
    split; [assumption|].
    destruct Hdraw as [Hlen Hrange].
    destruct (tf_gather_in_range noises tf_rnd Hrange) as (noise & Hg & Hgl & Hnth).
    unfold add_noise. rewrite Hg. simpl. eexists. split; [reflexivity|].
    split; [apply zip_with_length; congruence|].
    apply zip_with_Forall. intros r n' Hr Hn'.
    assert (E : n' = n).
    { apply In_nth_error in Hn'. destruct Hn' as [i Hi].
      assert (Hik : nth_error tf_rnd i = Some k).
      { assert (Hlt : i < List.length tf_rnd).
        { rewrite <- Hgl. apply nth_error_Some. rewrite Hi. discriminate. }
        destruct (nth_error tf_rnd i) as [j|] eqn:Hj.
        - apply nth_error_In in Hj. apply repeat_spec in Hj. congruence.
        - apply nth_error_None in Hj. lia. }
      rewrite (Hnth i k Hik), Hn in Hi. congruence. }
    subst n'. destruct r as [a|]; simpl; [|reflexivity].
    apply (mix_row_zero_max scale a n mn Hmax Hz).
  - apply add_noise_finite_when_maxima_nonzero.
Qed.

Lemma add_noise_division_unguarded_witness :
  exists rows,
    add_noise [Finite speech; Finite speech] (Some [rumble; silence]) [0; 1] SCALE = Ok rows /\
    nth_error rows 1 = Some NonFinite.
Proof.
  apply (proj1 (add_noise_division_unguarded [rumble; silence] SCALE)
           [Finite speech; Finite speech] [0; 1] 1 speech 1 silence 0%Q).
  - split; [reflexivity|]. repeat constructor.
  - reflexivity.
  - reflexivity.
  - reflexivity.
  - reflexivity.
  - reflexivity.
Defined.

(** *** The two streams *)

(** No function mapped over [valid_ds] adds noise: the validation stream
    does not inject noise before the spectral transform, nor anywhere, and
    a validation batch that holds [speech] is evaluated on the spectrum of
    [speech] itself although the pool holds [rumble]. *)
Lemma valid_ds_never_adds_noise :
  noise_before_fft (map_fns valid_ds) = false /\
  existsb is_add_noise (map_fns valid_ds) = false /\
  ~ (exists scale, In (OpMap (AddNoise scale)) valid_ds) /\
  forall (Spectrum : Type) (audio_to_fft_row : list Q -> Spectrum),
    stream_batch Spectrum audio_to_fft_row valid_ds [rumble] [0] [speech]
    = Ok (Spectra [Some (audio_to_fft_row speech)]).
Proof.
  split; [reflexivity|]. split; [reflexivity|]. split.
  - intros [scale H]. simpl in H.
    repeat (destruct H as [H|H]; [discriminate|]). exact H.
  - intros Spectrum audio_to_fft_row. reflexivity.
Qed.

(** C3, as the code has it. The validation stream maps [audio_to_fft]
    alone over its batches: the model is evaluated on the spectra of the
    clean waveforms, whatever the noise pool and the draw. Noise is
    injected, before the spectral transform, into the batches of the
    training stream (and of the stream of the demonstration). *)
Theorem valid_ds_is_evaluated_clean (Spectrum : Type)
    (audio_to_fft_row : list Q -> Spectrum)
    (noises : list (list Q)) (tf_rnd : list nat) (audio : list (list Q)) :
  stream_batch Spectrum audio_to_fft_row valid_ds noises tf_rnd audio
  = Ok (Spectra (map (fun w => Some (audio_to_fft_row w)) audio)) /\
  map_fns valid_ds = [AudioToFft] /\
  map_fns train_ds = [AddNoise SCALE; AudioToFft] /\
  map_fns test_ds = [AddNoise SCALE] /\
  stream_batch Spectrum audio_to_fft_row train_ds noises tf_rnd audio
  = (mixed <- add_noise (map Finite audio) (Some noises) tf_rnd SCALE ;;
     Ok (Spectra (audio_to_fft Spectrum audio_to_fft_row mixed))).
Proof.
  split; [|split; [reflexivity|split; [reflexivity|split; [reflexivity|]]]].
  - unfold stream_batch. simpl. unfold audio_to_fft. rewrite map_map. reflexivity.
  - unfold stream_batch, add_noise. simpl.
    destruct (tf_gather noises tf_rnd); reflexivity.
Qed.

(** ** ResidualConvClassifier *)

Module NetFacts.
Import Net.
Local Open Scope R_scope.

Lemma sum_map_div (e : list R) (s : R) :
  sum (map (fun v => v / s) e) = sum e / s.
Proof.
  induction e as [|v e IH]; simpl.
  - unfold Rdiv. rewrite Rmult_0_l. reflexivity.
  - rewrite IH. unfold Rdiv. rewrite Rmult_plus_distr_r. reflexivity.
Qed.

Lemma sum_exp_nonneg (z : list R) : 0 <= sum (map exp z).
Proof.
  induction z as [|v z IH]; simpl; [apply Rle_refl|].
  pose proof (exp_pos v). lra.
Qed.

Lemma sum_exp_pos (z : list R) : z <> [] -> 0 < sum (map exp z).
Proof.
  destruct z as [|v z]; [intros H; contradiction H; reflexivity|]. intros _.
  simpl. pose proof (exp_pos v). pose proof (sum_exp_nonneg z). lra.
Qed.

Lemma softmax_length (z : list R) : List.length (softmax z) = List.length z.
Proof. unfold softmax. rewrite !length_map. reflexivity. Qed.

Lemma softmax_nonneg (z : list R) : Forall (fun v => 0 <= v) (softmax z).
Proof.
  unfold softmax. apply Forall_forall. intros p Hp.
  apply in_map_iff in Hp. destruct Hp as (e & <- & He).
  apply in_map_iff in He. destruct He as (v & <- & Hv).
  assert (Hz : z <> []) by (intros ->; destruct Hv).
  apply Rlt_le. apply Rdiv_lt_0_compat; [apply exp_pos | apply sum_exp_pos; assumption].
Qed.

Lemma softmax_sum (z : list R) : z <> [] -> sum (softmax z) = 1.
Proof.
  intros Hz. unfold softmax. rewrite sum_map_div.
  pose proof (sum_exp_pos z Hz). field. lra.
Qed.

Lemma Dense_linear_length (w : DenseWeights) (x : Tensor1) :
  List.length (Dense_linear w x) = List.length (dense_bias w).
Proof. unfold Dense_linear. rewrite length_map, length_seq. reflexivity. Qed.

(** C8. For a model built for at least one class, every row of the
    output for every batch has one entry per class, all entries
    non-negative, and the entries sum to 1 (exactly, in real arithmetic). *)
Theorem predict_rows_are_distributions (num_classes : nat) (m : Model)
    (batch : list Tensor2) :
  (0 < num_classes)%nat -> built_by num_classes m ->
  List.length (predict m batch) = List.length batch /\
  Forall (distribution num_classes) (predict m batch).
Proof.
  intros Hn Hm.
  destruct Hm as (_ & _ & _ & _ & _ & _ & _ & Hout).
  split; [apply length_map|].
  apply Forall_forall. intros p Hp.
  apply in_map_iff in Hp. destruct Hp as (inputs & <- & _).
  unfold forward, Dense_softmax.
  set (x := Dense_relu (dense2 m) _).
  assert (Hlen : List.length (Dense_linear (output m) x) = num_classes).
  { rewrite Dense_linear_length. exact Hout. }
  unfold distribution. rewrite softmax_length.
  split; [exact Hlen|]. split; [apply softmax_nonneg|].
  apply softmax_sum. intros E. rewrite E in Hlen. simpl in Hlen. lia.
Qed.

Lemma zero_block_shape (filters conv_num : nat) :
  block_shape filters conv_num (zero_block filters conv_num).
Proof.
  unfold block_shape, zero_block. simpl. rewrite !repeat_length.
  repeat split.
  apply Forall_forall. intros c Hc. apply repeat_spec in Hc. subst c.
  simpl. apply repeat_length.
Qed.

Lemma zero_model_built (num_classes : nat) : built_by num_classes (zero_model num_classes).
Proof.
  unfold built_by, zero_model. simpl.
  repeat (split; [apply zero_block_shape|]).
  rewrite !repeat_length. repeat split.
Qed.

Lemma predict_rows_are_distributions_witness :
  List.length (predict (zero_model 5) [[[1; 2]; [3; 4]]]) = 1%nat /\
  Forall (distribution 5) (predict (zero_model 5) [[[1; 2]; [3; 4]]]).
Proof.
  apply (predict_rows_are_distributions 5 (zero_model 5) [[[1; 2]; [3; 4]]]).
  - lia.
  - apply zero_model_built.
Defined.
End NetFacts.

(** ** TrainingController *)

Lemma Qltb_lt (x y : Q) : Qltb x y = true <-> (x < y)%Q.
Proof.
  unfold Qltb. rewrite negb_true_iff. split.
  - intros H. apply Qnot_le_lt. intros Hle. apply Qle_bool_iff in Hle. congruence.
  - intros H. destruct (Qle_bool y x) eqn:E; [|reflexivity].
    apply Qle_bool_iff in E. exfalso. apply (Qlt_not_le _ _ H). assumption.
Qed.

Lemma Qltb_ge (x y : Q) : Qltb x y = false <-> (y <= x)%Q.
Proof.
  unfold Qltb. rewrite negb_false_iff. apply Qle_bool_iff.
Qed.

Section EpochEnd.
Variable Weights : Type.
Variable m : Monitor.
Variables (epoch : nat) (logs : Logs) (weights : Weights).
Variable st : CallbackState Weights.
Variables (reference : Q) (bw : Weights).
Hypothesis Hbest : best Weights st = Some reference.
Hypothesis Hbw : best_weights Weights st = Some bw.

Let current : Q := get_monitor_value m logs.

Lemma on_epoch_end_improves :
  monitor_op m current reference = true ->
  on_epoch_end Weights (earlystopping_on m) epoch logs weights st
  = {| wait := 0; best := Some current; best_weights := Some weights;
       best_epoch := epoch; stopped_epoch := stopped_epoch Weights st;
       stop_training := stop_training Weights st |}.
Proof.
  intros H. unfold on_epoch_end. cbn -[Nat.leb Nat.ltb]. rewrite Hbw, Hbest. cbn -[Nat.leb Nat.ltb].
  fold current. rewrite H. reflexivity.
Qed.

Lemma on_epoch_end_waits :
  monitor_op m current reference = false -> S (wait Weights st) < 10 ->
  on_epoch_end Weights (earlystopping_on m) epoch logs weights st
  = {| wait := S (wait Weights st); best := Some reference;
       best_weights := Some bw; best_epoch := best_epoch Weights st;
       stopped_epoch := stopped_epoch Weights st;
       stop_training := stop_training Weights st |}.
Proof.
  intros H Hw. unfold on_epoch_end. cbn -[Nat.leb Nat.ltb]. rewrite Hbw, Hbest. cbn -[Nat.leb Nat.ltb].
  fold current. rewrite H.
  destruct (Nat.leb_spec 10 (S (wait Weights st))) as [Hle|_]; [lia|].
  simpl. rewrite Hbw. reflexivity.
Qed.

Lemma on_epoch_end_stops :
  monitor_op m current reference = false -> 10 <= S (wait Weights st) ->
  0 < epoch ->
  on_epoch_end Weights (earlystopping_on m) epoch logs weights st
  = {| wait := S (wait Weights st); best := Some reference;
       best_weights := Some bw; best_epoch := best_epoch Weights st;
       stopped_epoch := epoch; stop_training := true |}.
Proof.
  intros H Hw He. unfold on_epoch_end. cbn -[Nat.leb Nat.ltb]. rewrite Hbw, Hbest. cbn -[Nat.leb Nat.ltb].
  fold current. rewrite H.
  destruct (Nat.leb_spec 10 (S (wait Weights st))) as [_|Hlt]; [|lia].
  destruct (Nat.ltb_spec 0 epoch) as [_|Hk]; [|lia].
  simpl. rewrite Hbw. reflexivity.
Qed.
End EpochEnd.

Section FitFacts.
Variable Weights : Type.
Variable train_epoch : nat -> Weights -> Weights.
Variable evaluate : nat -> Weights -> Logs.
Variable initial : Weights.
Variable m : Monitor.

Let cb : EarlyStopping := earlystopping_on m.
Let W (n : nat) : Weights := weights_after Weights train_epoch n initial.
Let value (e : nat) : Q := get_monitor_value m (evaluate e (W (S e))).
Let better (e b : nat) : bool := monitor_op m (value e) (value b).
Let step (k : nat) (st : CallbackState Weights) : CallbackState Weights :=
  on_epoch_end Weights cb k (evaluate k (W (S k))) (W (S k)) st.
Let loop (remaining k : nat) (st : CallbackState Weights) :=
  fit_loop Weights train_epoch evaluate cb remaining k (W k) st.

(** The callback after the epochs [0 .. k-1], none of which stopped the
    run: [b] is the last epoch that improved. *)
Let tracking (k b : nat) (st : CallbackState Weights) : Prop :=
  b < k /\
  stop_training Weights st = false /\
  best Weights st = Some (value b) /\
  best_weights Weights st = Some (W (S b)) /\
  wait Weights st = k - 1 - b /\
  forall j, b < j < k -> better j b = false.

Lemma loop_unfold (remaining k : nat) (st : CallbackState Weights) :
  loop (S remaining) k st
  = if stop_training Weights (step k st) then (S k, W (S k), step k st)
    else loop remaining (S k) (step k st).
Proof. reflexivity. Qed.

Lemma first_epoch : tracking 1 0 (step 0 (on_train_begin Weights)).
Proof.
  unfold tracking, step, on_epoch_end. simpl.
  repeat split; try reflexivity; try lia.
Qed.

Lemma epoch_improves (k b : nat) (st : CallbackState Weights) :
  tracking k b st -> better k b = true -> tracking (S k) k (step k st).
Proof.
  intros (Hb & Hstop & Hbest & Hbw & Hwait & Hno) Himp.
  pose proof (on_epoch_end_improves Weights m k (evaluate k (W (S k))) (W (S k))
                st (value b) (W (S b)) Hbest Hbw Himp) as E.
  unfold tracking, step, cb. rewrite E. simpl.
  repeat split; try assumption; try reflexivity; try lia.
Qed.

Lemma epoch_waits (k b : nat) (st : CallbackState Weights) :
  tracking k b st -> better k b = false -> k - b < 10 ->
  tracking (S k) b (step k st).
Proof.
  intros (Hb & Hstop & Hbest & Hbw & Hwait & Hno) Himp Hp.
  assert (Hw : S (wait Weights st) < 10) by lia.
  pose proof (on_epoch_end_waits Weights m k (evaluate k (W (S k))) (W (S k))
                st (value b) (W (S b)) Hbest Hbw Himp Hw) as E.
  unfold tracking, step, cb. rewrite E. simpl.
  repeat split; try assumption; try lia.
  intros j Hj. destruct (Nat.eq_dec j k) as [->|Hne]; [exact Himp|].
  apply Hno. lia.
Qed.

Lemma epoch_stops (k b : nat) (st : CallbackState Weights) :
  tracking k b st -> better k b = false -> 10 <= k - b ->
  stop_training Weights (step k st) = true /\
  best_weights Weights (step k st) = Some (W (S b)).
Proof.
  intros (Hb & Hstop & Hbest & Hbw & Hwait & Hno) Himp Hp.
  assert (Hw : 10 <= S (wait Weights st)) by lia.
  assert (Hk : 0 < k) by lia.
  pose proof (on_epoch_end_stops Weights m k (evaluate k (W (S k))) (W (S k))
                st (value b) (W (S b)) Hbest Hbw Himp Hw Hk) as E.
  unfold step, cb. rewrite E. simpl. split; reflexivity.
Qed.

(** Patience cannot run out during the first ten epochs. *)
Lemma reach_within_patience (k : nat) :
  1 <= k <= 10 ->
  forall remaining,
  exists b st,
    tracking k b st /\
    loop (k + remaining) 0 (on_train_begin Weights) = loop remaining k st.
Proof.
  intros [Hk1 Hk10]. induction k as [|k IH]; [lia|]. intros remaining.
  destruct k as [|k].
  - exists 0, (step 0 (on_train_begin Weights)).
    split; [apply first_epoch|].
    change (1 + remaining) with (S remaining). rewrite loop_unfold.
    destruct first_epoch as (_ & -> & _). reflexivity.
  - destruct (IH ltac:(lia) ltac:(lia) (S remaining)) as (b & st & Htr & Hfit).
    replace (S (S k) + remaining) with (S k + S remaining) by lia.
    rewrite Hfit, loop_unfold.
    assert (Hb : b < S k) by (destruct Htr; assumption).
    destruct (better (S k) b) eqn:Himp.
    + exists (S k), (step (S k) st).
      pose proof (epoch_improves _ _ _ Htr Himp) as Htr'.
      split; [assumption|].
      destruct Htr' as (_ & -> & _). reflexivity.
    + exists b, (step (S k) st).
      pose proof (epoch_waits _ _ _ Htr Himp ltac:(lia)) as Htr'.
      split; [assumption|].
      destruct Htr' as (_ & -> & _). reflexivity.
Qed.

(** From the last improvement [b] on, with no later improvement, the
    run goes on up to the epoch of index [b + 10] and stops there. *)
Lemma stagnation_stops (d k b remaining : nat) (st : CallbackState Weights) :
  tracking k b st -> k + d = b + 10 ->
  (forall j, k <= j <= b + 10 -> better j b = false) ->
  exists st',
    loop (S d + remaining) k st = (S (b + 10), W (S (b + 10)), st') /\
    best_weights Weights st' = Some (W (S b)).
Proof.
  revert k st. induction d as [|d IH]; intros k st Htr Hk Hno.
  - assert (E : k = b + 10) by lia. subst k.
    change (1 + remaining) with (S remaining). rewrite loop_unfold.
    destruct (epoch_stops _ _ _ Htr (Hno (b + 10) ltac:(lia)) ltac:(lia)) as [-> Hbw].
    eexists. split; [reflexivity | assumption].
  - change (S (S d) + remaining) with (S (S d + remaining)). rewrite loop_unfold.
    assert (Hb : b < k) by (destruct Htr; assumption).
    pose proof (epoch_waits _ _ _ Htr (Hno k ltac:(lia)) ltac:(lia)) as Htr'.
    destruct Htr' as (H1 & Hs & H2). rewrite Hs.
    apply IH.
    + exact (conj H1 (conj Hs H2)).
    + lia.
    + intros j Hj. apply Hno. lia.
Qed.

(** The scenario, for the monitored quantity whatever it is. *)
Lemma early_stopping_scenario (epochs : nat) :
  22 <= epochs ->
  (forall e, e < 11 -> better 11 e = true) ->
  (forall e, 11 < e < 22 -> better e 11 = false) ->
  (exists e, 1 <= e <= 10 /\ better e 0 = true) ->
  fit Weights train_epoch evaluate cb epochs initial = (22, W 12).
Proof.
  intros Hep Hpeak Hnever (e0 & He0 & Hstart).
  destruct (reach_within_patience 10 ltac:(lia) (epochs - 10)) as (b & st & Htr & Hfit).
  assert (Hb : b < 10) by (destruct Htr; assumption).
  assert (Hloop : exists st',
             loop epochs 0 (on_train_begin Weights) = (22, W 22, st') /\
             best_weights Weights st' = Some (W 12)).
  { replace epochs with (10 + (epochs - 10)) by lia. rewrite Hfit.
    replace (epochs - 10) with (S (epochs - 11)) by lia. rewrite loop_unfold.
    assert (Htr11 : exists b', tracking 11 b' (step 10 st)).
    { destruct (better 10 b) eqn:Himp.
      - exists 10. apply (epoch_improves _ _ _ Htr Himp).
      - destruct (Nat.eq_dec b 0) as [->|Hne].
        + exfalso. destruct Htr as (_ & _ & _ & _ & _ & Hno).
          destruct (Nat.eq_dec e0 10) as [->|Hne]; [congruence|].
          rewrite (Hno e0 ltac:(lia)) in Hstart. discriminate.
        + exists b. apply (epoch_waits _ _ _ Htr Himp). lia. }
    destruct Htr11 as (b' & Htr11).
    assert (Hs : stop_training Weights (step 10 st) = false)
      by (destruct Htr11 as (_ & H & _); exact H).
    rewrite Hs.
    assert (Hb' : b' < 11) by (destruct Htr11; assumption).
    replace (epochs - 11) with (S (epochs - 12)) by lia. rewrite loop_unfold.
    pose proof (epoch_improves _ _ _ Htr11 (Hpeak b' Hb')) as Htr12.
    assert (Hs12 : stop_training Weights (step 11 (step 10 st)) = false)
      by (destruct Htr12 as (_ & H & _); exact H).
    rewrite Hs12.
    destruct (stagnation_stops 9 12 11 (epochs - 22) _ Htr12 ltac:(lia)) as (st' & Hl & Hbw).
    { intros j Hj. apply Hnever. lia. }
    exists st'. split; [|exact Hbw].
    replace (epochs - 12) with (10 + (epochs - 22)) by lia. exact Hl. }
  destruct Hloop as (st' & Hl & Hbw).
  unfold fit. fold cb. change initial with (W 0).
  fold (loop epochs 0 (on_train_begin Weights)). rewrite Hl.
  unfold on_train_end. simpl. rewrite Hbw. reflexivity.
Qed.
End FitFacts.

(** C2, as the code has it. [EarlyStopping(patience=10,
    restore_best_weights=True)] watches the validation loss. A run of at
    least 22 epochs whose validation loss is lowest at epoch 12 (strictly
    below every earlier epoch, never undercut by epochs 13 to 22) and that
    gets as far as epoch 12 (some epoch from 2 to 11 improves on the first)
    halts after epoch 22 and is left with the weights of epoch 12. Epochs
    are indexed from 0 here: epoch 12 has index 11. *)
Theorem earlystopping_cb_halts_ten_epochs_after_lowest_loss
    (Weights : Type) (train_epoch : nat -> Weights -> Weights)
    (evaluate : nat -> Weights -> Logs) (initial : Weights) (epochs : nat) :
  let loss e := val_loss (logs_of Weights train_epoch evaluate initial e) in
  22 <= epochs ->
  (forall e, e < 11 -> (loss 11%nat < loss e)%Q) ->
  (forall e, 11 < e < 22 -> (loss 11%nat <= loss e)%Q) ->
  (exists e, 1 <= e <= 10 /\ (loss e < loss 0%nat)%Q) ->
  monitor earlystopping_cb = val_loss_name /\
  patience earlystopping_cb = 10 /\
  restore_best_weights earlystopping_cb = true /\
  fit Weights train_epoch evaluate earlystopping_cb epochs initial
  = (22, weights_after Weights train_epoch 12 initial).
Proof.
  intros loss Hep Hpeak Hnever (e0 & He0 & Hstart).
  repeat (split; [reflexivity|]).
  apply (early_stopping_scenario Weights train_epoch evaluate initial val_loss_name
           epochs Hep).
  - intros e He. apply Qltb_lt. exact (Hpeak e He).
  - intros e He. apply Qltb_ge. exact (Hnever e He).
  - exists e0. split; [assumption|]. apply Qltb_lt. exact Hstart.
Qed.

Lemma earlystopping_cb_halts_ten_epochs_after_lowest_loss_witness :
  fit nat steady_train plateau_evaluate earlystopping_cb 100 0 = (22, 12).
Proof.
  refine (proj2 (proj2 (proj2
    (earlystopping_cb_halts_ten_epochs_after_lowest_loss
       nat steady_train plateau_evaluate 0 100 _ _ _ _)))).
  - lia.
  - intros e He.
    do 11 (destruct e as [|e]; [apply Qltb_lt; vm_compute; reflexivity|]). lia.
  - intros e He.
    do 22 (destruct e as [|e]; [first [lia | apply Qltb_ge; vm_compute; reflexivity]|]).
    lia.
  - exists 1. split; [lia|]. apply Qltb_lt. vm_compute. reflexivity.
Defined.

(** A run of 100 epochs whose validation accuracy peaks at epoch 12 and
    is lower in every other epoch, while its validation loss falls with
    every epoch: the callback of the notebook never stops it, and it ends
    after epoch 100 with the weights of epoch 100. The same callback
    watching the validation accuracy would have halted it after epoch 22
    with the weights of epoch 12. *)
Lemma accuracy_peak_does_not_stop_training :
  let accuracy e := val_accuracy (logs_of nat steady_train steady_evaluate 0 e) in
  (forall e, e < 100 -> e <> 11 -> (accuracy e < accuracy 11%nat)%Q) /\
  (accuracy 0%nat < accuracy 1%nat)%Q /\
  fit nat steady_train steady_evaluate earlystopping_cb 100 0 = (100, 100) /\
  fit nat steady_train steady_evaluate earlystopping_cb 100 0 <> (22, 12) /\
  fit nat steady_train steady_evaluate (earlystopping_on val_accuracy_name) 100 0
  = (22, 12).
Proof.
  intros accuracy.
  assert (Hfit : fit nat steady_train steady_evaluate earlystopping_cb 100 0 = (100, 100))
    by (vm_compute; reflexivity).
  split; [|split; [|split; [|split]]].
  - assert (Hall : forallb (fun e => (e =? 11) || Qltb (accuracy e) (accuracy 11))
                     (seq 0 100) = true) by (vm_compute; reflexivity).
    intros e He Hne. rewrite forallb_forall in Hall.
    specialize (Hall e ltac:(apply in_seq; lia)).
    apply orb_true_iff in Hall. destruct Hall as [H|H].
    + apply Nat.eqb_eq in H. contradiction.
    + apply Qltb_lt. exact H.
  - apply Qltb_lt. vm_compute. reflexivity.
  - exact Hfit.
  - rewrite Hfit. discriminate.
  - vm_compute. reflexivity.
Qed.

(** * Further properties *)

(** ** Noise bank *)

Lemma substring_skip (c : ascii) (s : string) (n m : nat) :
  substring (S n) m (String c s) = substring n m s.
Proof. reflexivity. Qed.

Lemma substring_all (s : string) : substring 0 (String.length s) s = s.
Proof. induction s as [|c s IH]; simpl; [reflexivity | rewrite IH; reflexivity]. Qed.

Lemma substring_append (pre s : string) (m : nat) :
  substring (String.length pre) m (pre ++ s) = substring 0 m s.
Proof. induction pre as [|c pre IH]; simpl; [reflexivity | exact IH]. Qed.

Lemma substring_split (s : string) (n : nat) :
  n <= String.length s ->
  s = (substring 0 n s ++ substring n (String.length s - n) s)%string.
Proof.
  revert n. induction s as [|c s IH]; intros [|n] H; simpl in *; try lia.
  - reflexivity.
  - rewrite substring_all. reflexivity.
  - rewrite <- (IH n) by lia. reflexivity.
Qed.

Lemma append_length (a b : string) :
  String.length (a ++ b) = String.length a + String.length b.
Proof. induction a as [|c a IH]; simpl; [reflexivity | rewrite IH; reflexivity]. Qed.

(** [endswith] is what its name says. *)
Lemma endswith_iff (s suffix : string) :
  endswith s suffix = true <-> exists pre, s = (pre ++ suffix)%string.
Proof.
  unfold endswith. rewrite andb_true_iff, Nat.leb_le, String.eqb_eq. split.
  - intros [Hle Hsub].
    exists (substring 0 (String.length s - String.length suffix) s).
    pose proof (substring_split s (String.length s - String.length suffix)
                  ltac:(lia)) as E.
    replace (String.length s - (String.length s - String.length suffix))
      with (String.length suffix) in E by lia.
    rewrite Hsub in E. exact E.
  - intros [pre ->]. rewrite append_length. split; [lia|].
    replace (String.length pre + String.length suffix - String.length suffix)
      with (String.length pre) by lia.
    rewrite substring_append. apply substring_all.
Qed.

Lemma append_assoc (a b c : string) : ((a ++ b) ++ c = a ++ (b ++ c))%string.
Proof. induction a as [|x a IH]; simpl; [reflexivity | rewrite IH; reflexivity]. Qed.

Lemma endswith_path_join (dir f suffix : string) :
  endswith f suffix = true -> endswith (path_join dir f) suffix = true.
Proof.
  rewrite !endswith_iff. intros [pre ->].
  exists (dir ++ "/" ++ pre)%string. unfold path_join.
  rewrite !append_assoc. reflexivity.
Qed.

Lemma wav_files_in_spec (dir : string) (files : list string) (p : string) :
  In p (wav_files_in dir files) <->
  exists f, In f files /\ endswith f ".wav" = true /\ p = path_join dir f.
Proof.
  unfold wav_files_in. rewrite in_map_iff. split.
  - intros (f & <- & Hf). apply filter_In in Hf. exists f. tauto.
  - intros (f & Hin & Hw & ->). exists f. split; [reflexivity|].
    apply filter_In. tauto.
Qed.

(** X1. The discovery finds exactly the names ending in [.wav] that lie
    directly in a sub-directory of the noise directory: nothing from an
    entry that is no directory, nothing with another ending; and every
    path it returns ends in [.wav]. *)
Theorem noise_paths_are_the_wav_files (listing : list DirEntry) (p : string) :
  (In p (noise_paths listing) <->
   exists d f,
     In d listing /\ entry_isdir d = true /\
     In f (entry_listdir d) /\ endswith f ".wav" = true /\
     p = path_join (path_join DATASET_NOISE_PATH (entry_name d)) f) /\
  (In p (noise_paths listing) -> endswith p ".wav" = true).
Proof.
  assert (Hspec : In p (noise_paths listing) <->
    exists d f,
      In d listing /\ entry_isdir d = true /\
      In f (entry_listdir d) /\ endswith f ".wav" = true /\
      p = path_join (path_join DATASET_NOISE_PATH (entry_name d)) f).
  { induction listing as [|d rest IH]; simpl.
    - split; [intros [] | intros (d & f & [] & _)].
    - rewrite in_app_iff, IH. split.
      + intros [H | (d' & f & Hin & Hrest)].
        * destruct (entry_isdir d) eqn:Hdir; [|destruct H].
          apply wav_files_in_spec in H. destruct H as (f & Hf & Hw & ->).
          exists d, f. auto.
        * exists d', f. tauto.
      + intros (d' & f & [<- | Hin] & Hdir & Hf & Hw & ->).
        * left. rewrite Hdir. apply wav_files_in_spec. exists f. auto.
        * right. exists d', f. auto. }
  split; [exact Hspec|].
  intros H. apply Hspec in H. destruct H as (d & f & _ & _ & _ & Hw & ->).
  apply endswith_path_join. exact Hw.
Qed.

Lemma noise_paths_are_the_wav_files_witness :
  endswith pink_noise_path ".wav" = true.
Proof.
  apply (proj2 (noise_paths_are_the_wav_files noise_listing pink_noise_path)).
  left. reflexivity.
Defined.

Lemma pieces_nth {A : Type} (size num i : nat) (value : list A) :
  i < num ->
  nth_error (pieces size num value) i = Some (firstn size (skipn (i * size) value)).
Proof.
  revert i value. induction num as [|num IH]; intros [|i] value H; simpl; try lia.
  - reflexivity.
  - rewrite IH by lia. rewrite skipn_skipn.
    replace (i * size + size) with (size + i * size) by lia. reflexivity.
Qed.

(** X2. The chunks of a source are its consecutive seconds: chunk [i] is
    [sample[i * SAMPLING_RATE : (i + 1) * SAMPLING_RATE]], and what is cut
    off at the end is [sample_count mod SAMPLING_RATE] samples, less than
    one second. *)
Theorem load_noise_sample_chunk_positions (w : Wav) (chunks : list (list Q)) :
  load_noise_sample w = Ok (Some chunks) ->
  (forall i, i < List.length chunks ->
     nth_error chunks i
     = Some (firstn SAMPLING_RATE (skipn (i * SAMPLING_RATE) (wav_samples w)))) /\
  List.length (wav_samples w)
  = List.length (List.concat chunks) + List.length (wav_samples w) mod SAMPLING_RATE /\
  List.length (wav_samples w) mod SAMPLING_RATE < SAMPLING_RATE.
Proof.
  intros Hload.
  destruct (load_noise_sample_some w chunks Hload) as [Hrate Hlen].
  pose proof SAMPLING_RATE_pos as Hpos.
  pose proof (load_noise_sample_chunks w Hrate Hlen) as E. cbv zeta in E.
  set (slices := List.length (wav_samples w) / SAMPLING_RATE) in *.
  assert (Hc : chunks = pieces SAMPLING_RATE slices
                          (firstn (slices * SAMPLING_RATE) (wav_samples w)))
    by congruence.
  clear E Hload. subst chunks.
  assert (Hle : slices * SAMPLING_RATE <= List.length (wav_samples w)).
  { unfold slices. rewrite Nat.mul_comm. apply Nat.Div0.mul_div_le. }
  assert (Hfl : List.length (firstn (slices * SAMPLING_RATE) (wav_samples w))
                = slices * SAMPLING_RATE).
  { rewrite length_firstn. lia. }
  assert (Hdm : List.length (wav_samples w)
                = slices * SAMPLING_RATE + List.length (wav_samples w) mod SAMPLING_RATE).
  { unfold slices. rewrite Nat.mul_comm. apply Nat.div_mod_eq. }
  clearbody slices.
  rewrite pieces_length.
  split; [|split].
  - intros i Hi. rewrite pieces_nth by assumption.
    rewrite skipn_firstn_comm, firstn_firstn.
    assert (Hi' : S i * SAMPLING_RATE <= slices * SAMPLING_RATE)
      by (apply Nat.mul_le_mono_r; lia).
    rewrite Nat.mul_succ_l in Hi'.
    rewrite Nat.min_l by lia. reflexivity.
  - rewrite pieces_concat by assumption. rewrite Hfl. exact Hdm.
  - apply Nat.mod_upper_bound. lia.
Qed.

Lemma load_noise_sample_six_seconds :
  load_noise_sample six_seconds
  = Ok (Some (pieces SAMPLING_RATE (List.length (wav_samples six_seconds) / SAMPLING_RATE)
                (firstn (List.length (wav_samples six_seconds) / SAMPLING_RATE * SAMPLING_RATE)
                   (wav_samples six_seconds)))).
Proof.
  apply load_noise_sample_chunks; [reflexivity|].
  rewrite six_seconds_length. lia.
Qed.

Lemma load_noise_sample_chunk_positions_witness :
  List.length (wav_samples six_seconds) mod SAMPLING_RATE < SAMPLING_RATE.
Proof.
  exact (proj2 (proj2 (load_noise_sample_chunk_positions six_seconds _
                         load_noise_sample_six_seconds))).
Defined.

Lemma load_noise_sample_file_chunks (w : Wav) :
  (wav_rate w = SAMPLING_RATE -> SAMPLING_RATE <= List.length (wav_samples w)) ->
  load_noise_sample w
  = Ok (if wav_rate w =? SAMPLING_RATE then Some (file_chunks w) else None) /\
  (wav_rate w = SAMPLING_RATE -> file_chunks w <> []).
Proof.
  intros H. unfold file_chunks.
  destruct (Nat.eqb_spec (wav_rate w) SAMPLING_RATE) as [Hr|Hr].
  - split; [apply load_noise_sample_chunks; auto|].
    intros _ E. apply (f_equal (@List.length _)) in E.
    rewrite pieces_length in E. change (List.length (@nil (list Q))) with 0 in E.
    assert (Hs : 0 < List.length (wav_samples w) / SAMPLING_RATE).
    { apply Nat.div_str_pos. split; [apply SAMPLING_RATE_pos | auto]. }
    rewrite E in Hs. apply (Nat.lt_irrefl 0 Hs).
  - split; [apply load_noise_sample_skips; assumption | contradiction].
Qed.

Lemma file_chunks_sizes (w : Wav) :
  Forall (fun c => List.length c = SAMPLING_RATE) (file_chunks w) /\
  List.length (file_chunks w)
  = (if wav_rate w =? SAMPLING_RATE
     then List.length (wav_samples w) / SAMPLING_RATE else 0).
Proof.
  unfold file_chunks. destruct (wav_rate w =? SAMPLING_RATE).
  - split; [|apply pieces_length].
    apply pieces_all_of_size. rewrite length_firstn.
    pose proof (Nat.Div0.mul_div_le (List.length (wav_samples w)) SAMPLING_RATE). lia.
  - split; [constructor | reflexivity].
Qed.

Lemma extend_noises_file_chunks (files : list Wav) (noises : list (list Q)) :
  Forall (fun w => wav_rate w = SAMPLING_RATE ->
                   SAMPLING_RATE <= List.length (wav_samples w)) files ->
  extend_noises files noises = Ok (noises ++ flat_map file_chunks files).
Proof.
  intros H. revert noises. induction H as [|w rest Hw _ IH]; intros noises; simpl.
  - rewrite app_nil_r. reflexivity.
  - destruct (load_noise_sample_file_chunks w Hw) as [-> Hne]. simpl.
    destruct (Nat.eqb_spec (wav_rate w) SAMPLING_RATE) as [Hr|Hr].
    + specialize (Hne Hr). destruct (file_chunks w) as [|c cs] eqn:E;
        [contradiction Hne; reflexivity|].
      simpl truthy. cbv iota. rewrite IH, <- app_assoc. reflexivity.
    + simpl. rewrite IH. unfold file_chunks at 2.
      destruct (Nat.eqb_spec (wav_rate w) SAMPLING_RATE); [contradiction|].
      reflexivity.
Qed.

Lemma forallb_same_length (size : nat) (v : list Q) (vs : list (list Q)) :
  Forall (fun c => List.length c = size) (v :: vs) ->
  forallb (fun u => List.length u =? List.length v) vs = true.
Proof.
  intros H. inversion H as [|? ? Hv Hvs]; subst.
  apply forallb_forall. intros u Hu. rewrite Forall_forall in Hvs.
  rewrite (Hvs u Hu). apply Nat.eqb_refl.
Qed.

(** X3. When every file at the target rate holds at least one second and
    there is such a file, the pool is built: it holds the chunks of the
    files in the order of the files (files at another rate add nothing),
    every chunk has [SAMPLING_RATE] samples, and their number is the sum
    of the whole seconds of the files at the target rate. *)
Theorem build_noises_pool (files : list Wav) :
  Forall (fun w => wav_rate w = SAMPLING_RATE ->
                   SAMPLING_RATE <= List.length (wav_samples w)) files ->
  Exists (fun w => wav_rate w = SAMPLING_RATE) files ->
  build_noises files = Ok (flat_map file_chunks files) /\
  Forall (fun c => List.length c = SAMPLING_RATE) (flat_map file_chunks files) /\
  List.length (flat_map file_chunks files)
  = list_sum (map (fun w => if wav_rate w =? SAMPLING_RATE
                            then List.length (wav_samples w) / SAMPLING_RATE
                            else 0) files).
Proof.
  intros Hall Hex.
  assert (Hsizes : Forall (fun c => List.length c = SAMPLING_RATE)
                     (flat_map file_chunks files)).
  { apply Forall_flat_map. apply Forall_forall. intros w _.
    apply (proj1 (file_chunks_sizes w)). }
  split; [|split; [exact Hsizes|]].
  - unfold build_noises. rewrite (extend_noises_file_chunks files [] Hall). simpl.
    destruct (flat_map file_chunks files) as [|v vs] eqn:E.
    + exfalso. apply Exists_exists in Hex. destruct Hex as (w & Hin & Hr).
      rewrite Forall_forall in Hall.
      destruct (load_noise_sample_file_chunks w (Hall w Hin)) as [_ Hne].
      apply (Hne Hr).
      assert (Hsub : forall c, In c (file_chunks w) -> In c (flat_map file_chunks files)).
      { intros c Hc. apply in_flat_map. exists w. split; assumption. }
      destruct (file_chunks w) as [|c cs]; [reflexivity|].
      specialize (Hsub c (or_introl eq_refl)). rewrite E in Hsub. destruct Hsub.
    + simpl. rewrite (forallb_same_length SAMPLING_RATE v vs Hsizes). reflexivity.
  - clear. induction files as [|w rest IH]; [reflexivity|].
    cbn [flat_map map list_sum fold_right].
    rewrite length_app, IH, (proj2 (file_chunks_sizes w)). reflexivity.
Qed.

Lemma mixed_files_rates :
  Forall (fun w => wav_rate w = SAMPLING_RATE ->
                   SAMPLING_RATE <= List.length (wav_samples w)) mixed_files.
Proof.
  unfold mixed_files, unresampled_files.
  apply Forall_cons; [|apply Forall_cons; [|apply Forall_cons; [|apply Forall_nil]]].
  - intros _. rewrite six_seconds_length. lia.
  - intros H. apply Nat.eqb_eq in H. vm_compute in H. discriminate.
  - intros H. apply Nat.eqb_eq in H. vm_compute in H. discriminate.
Qed.

Lemma build_noises_pool_witness :
  build_noises mixed_files = Ok (flat_map file_chunks mixed_files).
Proof.
  exact (proj1 (build_noises_pool mixed_files mixed_files_rates
                  (Exists_cons_hd _ six_seconds unresampled_files eq_refl))).
Defined.

Lemma load_noise_sample_short (w : Wav) :
  wav_rate w = SAMPLING_RATE -> List.length (wav_samples w) < SAMPLING_RATE ->
  load_noise_sample w = Raise InvalidArgumentError.
Proof.
  intros Hr Hlen. unfold load_noise_sample.
  rewrite Hr, Nat.eqb_refl, (Nat.div_small _ _ Hlen). reflexivity.
Qed.

Lemma load_noise_sample_raises (w : Wav) (e : exn) :
  load_noise_sample w = Raise e -> e = InvalidArgumentError.
Proof.
  unfold load_noise_sample, tf_split.
  destruct (wav_rate w =? SAMPLING_RATE); [|discriminate].
  destruct (_ =? 0); [intros H; injection H as <-; reflexivity|].
  destruct (_ =? 0); [discriminate|].
  intros H; injection H as <-; reflexivity.
Qed.

(** X4. One file at the target rate that is shorter than a second makes
    the whole noise preparation fail, whatever the other files hold: the
    exception of [tf.split] is not caught. *)
Theorem build_noises_short_file_is_fatal (files : list Wav) (w : Wav) :
  In w files -> wav_rate w = SAMPLING_RATE ->
  List.length (wav_samples w) < SAMPLING_RATE ->
  build_noises files = Raise InvalidArgumentError.
Proof.
  intros Hin Hr Hlen. unfold build_noises.
  assert (H : forall noises, extend_noises files noises = Raise InvalidArgumentError).
  { induction files as [|w' rest IH]; [destruct Hin|]. intros noises. simpl.
    destruct Hin as [-> | Hin].
    - rewrite (load_noise_sample_short w Hr Hlen). reflexivity.
    - destruct (load_noise_sample w') as [sample|e] eqn:E; simpl.
      + apply (IH Hin).
      + rewrite (load_noise_sample_raises w' e E). reflexivity. }
  rewrite H. reflexivity.
Qed.

Lemma build_noises_short_file_is_fatal_witness :
  build_noises files_with_short = Raise InvalidArgumentError.
Proof.
  apply (build_noises_short_file_is_fatal files_with_short short_noise).
  - right. left. reflexivity.
  - reflexivity.
  - apply Nat.ltb_lt. vm_compute. reflexivity.
Defined.

(** ** Clips and labels *)

Lemma collect_clips_nth (label : nat) (classes : list DirEntry) (i : nat)
    (p : string) (l : nat) :
  nth_error (fst (collect_clips label classes)) i = Some p ->
  nth_error (snd (collect_clips label classes)) i = Some l ->
  exists c f,
    label <= l /\ nth_error classes (l - label) = Some c /\
    In f (entry_listdir c) /\ endswith f ".wav" = true /\
    p = path_join (path_join DATASET_AUDIO_PATH (entry_name c)) f.
Proof.
  revert label i. induction classes as [|c rest IH]; intros label i; simpl.
  - destruct i; discriminate.
  - specialize (IH (S label)).
    destruct (collect_clips (S label) rest) as [ps ls]. simpl in *.
    set (sp := wav_files_in (path_join DATASET_AUDIO_PATH (entry_name c)) (entry_listdir c)).
    destruct (Nat.lt_ge_cases i (List.length sp)) as [Hlt|Hge].
    + rewrite nth_error_app1 by assumption.
      rewrite nth_error_app1 by (rewrite repeat_length; assumption).
      rewrite nth_error_repeat by assumption.
      intros Hp Hl. injection Hl as <-.
      apply nth_error_In in Hp. apply wav_files_in_spec in Hp.
      destruct Hp as (f & Hf & Hw & ->).
      exists c, f. rewrite Nat.sub_diag. auto.
    + rewrite nth_error_app2 by assumption.
      rewrite nth_error_app2 by (rewrite repeat_length; assumption).
      rewrite repeat_length. intros Hp Hl.
      destruct (IH _ Hp Hl) as (c' & f & Hle & Hc & Hf & Hw & ->).
      exists c', f. split; [lia|]. split; [|auto].
      replace (l - label) with (S (l - S label)) by lia. exact Hc.
Qed.

(** X5. Before the shuffle, the label at a position is the index, in
    [class_names], of the directory the path at that position was taken
    from, and the path is that of a [.wav] file of that directory. *)
Theorem label_is_index_of_speaker_directory (classes : list DirEntry) (i : nat)
    (p : string) (l : nat) :
  nth_error (audio_paths classes) i = Some p ->
  nth_error (labels classes) i = Some l ->
  exists c f,
    nth_error classes l = Some c /\
    In f (entry_listdir c) /\ endswith f ".wav" = true /\
    p = path_join (path_join DATASET_AUDIO_PATH (entry_name c)) f.
Proof.
  intros Hp Hl.
  destruct (collect_clips_nth 0 classes i p l Hp Hl) as (c & f & _ & Hc & H).
  rewrite Nat.sub_0_r in Hc. exists c, f. auto.
Qed.

Lemma label_is_index_of_speaker_directory_witness :
  exists c f,
    nth_error two_speakers 1 = Some c /\
    In f (entry_listdir c) /\ endswith f ".wav" = true /\
    path_join (path_join DATASET_AUDIO_PATH "bob") "1.wav"
    = path_join (path_join DATASET_AUDIO_PATH (entry_name c)) f.
Proof.
  apply (label_is_index_of_speaker_directory two_speakers 3); reflexivity.
Defined.

Lemma collect_clips_count (label : nat) (classes : list DirEntry) (l : nat) :
  count_occ Nat.eq_dec (snd (collect_clips label classes)) l
  = if l <? label then 0
    else match nth_error classes (l - label) with
         | Some c => clip_count c
         | None => 0
         end.
Proof.
  revert label. induction classes as [|c rest IH]; intros label; simpl.
  - destruct (l <? label); [reflexivity|]. destruct (l - label); reflexivity.
  - specialize (IH (S label)).
    destruct (collect_clips (S label) rest) as [ps ls]. simpl in *.
    rewrite count_occ_app, IH. unfold wav_files_in. rewrite length_map.
    fold (clip_count c).
    destruct (Nat.ltb_spec l label) as [Hlt|Hge].
    + rewrite count_occ_repeat_neq by lia.
      destruct (Nat.ltb_spec l (S label)); [reflexivity | lia].
    + destruct (Nat.eq_dec l label) as [->|Hne].
      * rewrite count_occ_repeat_eq by reflexivity.
        destruct (Nat.ltb_spec label (S label)); [|lia].
        rewrite Nat.sub_diag. simpl. lia.
      * rewrite count_occ_repeat_neq by lia.
        destruct (Nat.ltb_spec l (S label)); [lia|].
        replace (l - label) with (S (l - S label)) by lia. reflexivity.
Qed.

(** X6. A label occurs once for every clip of its speaker: as often as
    the directory with that index holds [.wav] files. A directory without
    clips keeps its index and gives no label, an index beyond the
    directories never occurs, so every label is below [len(class_names)],
    the number of classes the model is built for. *)
Theorem labels_count_clips_per_speaker (classes : list DirEntry) :
  (forall l, count_occ Nat.eq_dec (labels classes) l
             = match nth_error classes l with
               | Some c => clip_count c
               | None => 0
               end) /\
  Forall (fun l => l < List.length classes) (labels classes) /\
  List.length (labels classes) = list_sum (map clip_count classes) /\
  List.length (audio_paths classes) = list_sum (map clip_count classes).
Proof.
  assert (Hcount : forall l, count_occ Nat.eq_dec (labels classes) l
             = match nth_error classes l with
               | Some c => clip_count c
               | None => 0
               end).
  { intros l. unfold labels. rewrite collect_clips_count. simpl.
    rewrite Nat.sub_0_r. reflexivity. }
  assert (Hlen : List.length (audio_paths classes) = list_sum (map clip_count classes)).
  { clear Hcount. unfold audio_paths. generalize 0.
    induction classes as [|c rest IH]; intros label; simpl; [reflexivity|].
    specialize (IH (S label)).
    destruct (collect_clips (S label) rest) as [ps ls]. simpl in *.
    rewrite length_app, IH. unfold wav_files_in, clip_count.
    rewrite length_map. reflexivity. }
  split; [exact Hcount|]. split; [|split; [|exact Hlen]].
  - apply Forall_forall. intros l Hl.
    apply (count_occ_In Nat.eq_dec) in Hl. rewrite Hcount in Hl.
    destruct (nth_error classes l) eqn:E; [|lia].
    apply nth_error_Some. rewrite E. discriminate.
  - rewrite paths_labels_lengths. exact Hlen.
Qed.

(** ** Shuffle and split together *)








Lemma shuffle_length (g : BitGenerator) {A : Type} (seed : nat) (x : list A) :
  List.length (shuffle g seed x) = List.length x.
Proof. apply Permutation_length. apply shuffle_perm. Qed.



(** X8. The two slices of the split, for a number [k] of validation
    samples however it was computed: for [1 <= k <= len(x)], [x[:-k]] is
    the list without its last [k] entries and [x[-k:]] is the last [k]
    entries; for [k = 0] and for [k > len(x)], [x[:-k]] is empty and
    [x[-k:]] is the whole list. In every case the two together are [x]. *)
Theorem negative_slices_take_the_last_entries {A : Type} (x : list A) (k : Z) :
  (0 <= k)%Z ->
  slice_to x (- k) ++ slice_from x (- k) = x /\
  ((1 <= k <= Z.of_nat (List.length x))%Z ->
   slice_to x (- k) = firstn (List.length x - Z.to_nat k) x /\
   slice_from x (- k) = skipn (List.length x - Z.to_nat k) x /\
   List.length (slice_from x (- k)) = Z.to_nat k /\
   List.length (slice_to x (- k)) = List.length x - Z.to_nat k) /\
  (k = 0%Z \/ (Z.of_nat (List.length x) < k)%Z ->
   slice_to x (- k) = [] /\ slice_from x (- k) = x).
Proof.
  intros Hk. unfold slice_to, slice_from.
  split; [apply firstn_skipn|]. split.
  - intros Hin.
    assert (Hb : slice_bound (List.length x) (- k) = List.length x - Z.to_nat k).
    { unfold slice_bound. destruct (Z.ltb_spec (- k) 0); lia. }
    rewrite Hb, length_skipn, length_firstn. repeat split; lia.
  - intros Hout.
    assert (Hb : slice_bound (List.length x) (- k) = 0).
    { unfold slice_bound. destruct (Z.ltb_spec (- k) 0); lia. }
    rewrite Hb. split; reflexivity.
Qed.

Lemma negative_slices_take_the_last_entries_witness :
  slice_to five_clips (- 2) ++ slice_from five_clips (- 2) = five_clips.
Proof.
  apply (negative_slices_take_the_last_entries five_clips 2). lia.
Defined.

Lemma num_val_samples_tenth (total : nat) :
  num_val_samples VALID_SPLIT total = Z.of_nat (total / 10).
Proof.
  unfold num_val_samples, py_int, VALID_SPLIT, Qmult, inject_Z.
  cbn [Qnum Qden]. rewrite Z.mul_1_l, Pos.mul_1_r.
  rewrite Z.quot_div_nonneg by lia.
  rewrite Nat2Z.inj_div. reflexivity.
Qed.

(** X9. With [VALID_SPLIT = 0.1], a collection of at least ten clips is
    split into [total // 10] validation clips, the last ones of the
    shuffled lists, and [total - total // 10] training clips; a non-empty
    collection of fewer than ten clips is left without any training clip,
    all of it going to validation. *)
Theorem notebook_split_sizes (g : BitGenerator) (classes : list DirEntry) :
  let total := List.length (audio_paths classes) in
  (10 <= total ->
   List.length (valid_audio_paths g classes) = total / 10 /\
   List.length (valid_labels g classes) = total / 10 /\
   List.length (train_audio_paths g classes) = total - total / 10 /\
   List.length (train_labels g classes) = total - total / 10 /\
   valid_audio_paths g classes = skipn (total - total / 10) (shuffled_paths g classes)) /\
  (total < 10 ->
   train_audio_paths g classes = [] /\ train_labels g classes = [] /\
   valid_audio_paths g classes = shuffled_paths g classes /\
   valid_labels g classes = shuffled_labels g classes).
Proof.
  intros total.
  assert (Hp : List.length (shuffled_paths g classes) = total)
    by apply shuffle_length.
  assert (Hl : List.length (shuffled_labels g classes) = total).
  { unfold shuffled_labels. rewrite shuffle_length. apply paths_labels_lengths. }
  unfold valid_audio_paths, valid_labels, train_audio_paths, train_labels,
    train_part, valid_part, slice_to, slice_from.
  rewrite Hp, Hl, num_val_samples_tenth.
  split; intros Htot.
  - assert (Hq : 1 <= total / 10) by (apply Nat.div_le_lower_bound; lia).
    assert (Hq' : total / 10 <= total) by (apply Nat.Div0.div_le_upper_bound; lia).
    assert (Hb : slice_bound total (- Z.of_nat (total / 10)) = total - total / 10).
    { unfold slice_bound. destruct (Z.ltb_spec (- Z.of_nat (total / 10)) 0); lia. }
    rewrite Hb, !length_skipn, !length_firstn, Hp, Hl.
    repeat split; lia.
  - rewrite (Nat.div_small total 10 Htot). simpl.
    unfold slice_bound. simpl. repeat split.
Qed.

Lemma notebook_split_sizes_witness :
  List.length (valid_audio_paths lcg one_speaker) = 12 / 10.
Proof.
  refine (proj1 (proj1 (notebook_split_sizes lcg one_speaker) _)).
  vm_compute. lia.
Defined.

(** ** Noise injection *)

(** X10. Where the largest sample of the waveform and of the noise chunk
    are also their peaks (largest absolute values), the division is
    defined and every sample of the mixture stays within
    [peak + scale * peak] of the waveform. *)
Theorem mix_row_bounded_when_maxima_are_peaks (scale : Q) (audio noise : list Q)
    (ma pa mn pn : Q) :
  (0 <= scale)%Q ->
  reduce_max audio = Some ma -> peak audio = Some pa -> (ma == pa)%Q ->
  reduce_max noise = Some mn -> peak noise = Some pn -> (mn == pn)%Q ->
  ~ (mn == 0)%Q ->
  exists mixed,
    mix_row scale audio noise = Finite mixed /\
    forall v, In v mixed -> (Qabs v <= pa + scale * pa)%Q.
Proof.
  intros Hs Ha Hpa Hma Hn Hpn Hmn Hz. unfold mix_row. rewrite Ha, Hn.
  rewrite (proj2 (Qeq_bool_false mn 0) Hz).
  eexists. split; [reflexivity|].
  intros v Hv. apply in_zip_with in Hv. destruct Hv as (a & n & Hina & Hinn & ->).
  pose proof (peak_ge _ _ Hpa a Hina) as Hale.
  pose proof (peak_ge _ _ Hpn n Hinn) as Hnle.
  pose proof (peak_nonneg _ _ Hpa) as Hpa0.
  pose proof (peak_nonneg _ _ Hpn) as Hpn0.
  rewrite <- Hma in Hale, Hpa0 |- *. rewrite <- Hmn in Hnle, Hpn0.
  assert (Hpos : (0 < mn)%Q).
  { apply Qle_lteq in Hpn0. destruct Hpn0 as [H|H]; [assumption|].
    contradiction Hz. symmetry. assumption. }
  eapply Qle_trans; [apply Qabs_triangle|].
  apply Qplus_le_compat; [assumption|].
  rewrite !Qabs_Qmult.
  assert (Hprop : (0 <= ma / mn)%Q).
  { apply Qle_shift_div_l; [assumption|]. rewrite Qmult_0_l. assumption. }
  rewrite (Qabs_pos (ma / mn) Hprop), (Qabs_pos scale Hs).
  assert (E : (scale * ma == mn * (ma / mn) * scale)%Q) by (field; assumption).
  rewrite E.
  apply Qmult_le_compat_r; [|assumption].
  apply Qmult_le_compat_r; assumption.
Qed.

Lemma mix_row_bounded_when_maxima_are_peaks_witness :
  exists mixed,
    mix_row SCALE speech hiss = Finite mixed /\
    forall v, In v mixed -> (Qabs v <= (1 # 2) + SCALE * (1 # 2))%Q.
Proof.
  apply (mix_row_bounded_when_maxima_are_peaks SCALE speech hiss
           (1 # 2) (1 # 2) 1 1); try reflexivity.
  - apply Qle_bool_iff. reflexivity.
  - intros H. apply Qeq_bool_iff in H. discriminate.
Defined.

Lemma zip_with_Forall2 {A B : Type} (f : A -> B -> A) (R : A -> A -> Prop)
    (x : list A) (y : list B) :
  List.length x = List.length y ->
  (forall a b, R (f a b) a) -> Forall2 R (zip_with f x y) x.
Proof.
  intros Hlen H. revert y Hlen.
  induction x as [|a x IH]; intros [|b y] Hlen; simpl in *; try lia.
  - constructor.
  - constructor; [apply H | apply IH; lia].
Qed.

(** X11. With [scale = 0] a mixture that is finite is the waveform
    itself: the noise term vanishes. (A noise chunk of maximum zero still
    spoils the row, whatever the scale.) *)
Theorem mix_row_scale_zero (scale : Q) (audio noise mixed : list Q) :
  (scale == 0)%Q -> List.length audio = List.length noise ->
  mix_row scale audio noise = Finite mixed ->
  Forall2 Qeq mixed audio.
Proof.
  intros Hs Hlen. unfold mix_row.
  destruct (reduce_max audio) as [ma|]; [|discriminate].
  destruct (reduce_max noise) as [mn|]; [|discriminate].
  destruct (Qeq_bool mn 0); [discriminate|].
  intros H. injection H as <-.
  apply zip_with_Forall2; [assumption|].
  intros a n. rewrite Hs. ring.
Qed.

Lemma mix_row_scale_zero_witness :
  exists mixed, mix_row 0 speech rumble = Finite mixed /\ Forall2 Qeq mixed speech.
Proof.
  eexists. split; [reflexivity|].
  apply (mix_row_scale_zero 0 speech rumble); reflexivity.
Defined.

Lemma zip_with_nth_error_inv {A B C : Type} (f : A -> B -> C) (x : list A)
    (y : list B) (i : nat) (c : C) :
  nth_error (zip_with f x y) i = Some c ->
  exists a b, nth_error x i = Some a /\ nth_error y i = Some b /\ c = f a b.
Proof.
  revert x y. induction i as [|i IH]; intros [|a x] [|b y] H; simpl in *;
    try discriminate.
  - injection H as <-. exists a, b. auto.
  - apply IH. assumption.
Qed.

Lemma mix_row_length (scale : Q) (audio noise mixed : list Q) :
  List.length audio = List.length noise ->
  mix_row scale audio noise = Finite mixed ->
  List.length mixed = List.length audio.
Proof.
  intros Hlen. unfold mix_row.
  destruct (reduce_max audio); [|discriminate].
  destruct (reduce_max noise); [|discriminate].
  destruct (Qeq_bool _ _); [discriminate|].
  intros H. injection H as <-. apply zip_with_length. assumption.
Qed.

(** X12. [add_noise] keeps the shape of the batch: for a draw of one
    in-range index per waveform it raises nothing and returns one row per
    waveform, and a row that is finite has as many samples as the
    waveform it was mixed from. *)
Theorem add_noise_keeps_shape (audio : list (list Q)) (noises : list (list Q))
    (tf_rnd : list nat) (scale : Q) (samples : nat) :
  valid_draw (List.length audio) (List.length noises) tf_rnd ->
  Forall (fun a => List.length a = samples) audio ->
  Forall (fun n => List.length n = samples) noises ->
  exists rows,
    add_noise (map Finite audio) (Some noises) tf_rnd scale = Ok rows /\
    List.length rows = List.length audio /\
    Forall (fun r => forall mixed, r = Finite mixed -> List.length mixed = samples) rows.
Proof.
  intros [Hlen Hrange] Ha Hn.
  destruct (tf_gather_in_range noises tf_rnd Hrange) as (noise & Hg & Hgl & _).
  unfold add_noise. rewrite Hg. simpl. eexists. split; [reflexivity|].
  split.
  - rewrite zip_with_length; rewrite length_map; [reflexivity | congruence].
  - apply zip_with_Forall. intros r n Hr Hin mixed Hm.
    apply in_map_iff in Hr. destruct Hr as (a & <- & Hina).
    rewrite Forall_forall in Ha, Hn.
    specialize (Ha a Hina).
    specialize (Hn n (tf_gather_members _ _ _ Hg n Hin)).
    simpl in Hm. rewrite (mix_row_length scale a n mixed) by congruence.
    exact Ha.
Qed.

Lemma add_noise_keeps_shape_witness :
  exists rows,
    add_noise (map Finite [speech; speech]) (Some [rumble; silence]) [1; 0] SCALE = Ok rows /\
    List.length rows = 2 /\
    Forall (fun r => forall mixed, r = Finite mixed -> List.length mixed = 2) rows.
Proof.
  apply (add_noise_keeps_shape [speech; speech] [rumble; silence] [1; 0] SCALE 2).
  - split; [reflexivity|]. repeat constructor.
  - repeat constructor.
  - repeat constructor.
Defined.

(** X13. What the model is fed for a training batch: for every waveform
    the spectrum of its mixture with the drawn noise chunk, or, where the
    maximum of that chunk is zero, a row of NaN. *)
Theorem train_stream_feeds_spectrum_of_mixture (Spectrum : Type)
    (audio_to_fft_row : list Q -> Spectrum) (audio : list (list Q))
    (noises : list (list Q)) (tf_rnd : list nat) :
  valid_draw (List.length audio) (List.length noises) tf_rnd ->
  exists rows,
    stream_batch Spectrum audio_to_fft_row train_ds noises tf_rnd audio
    = Ok (Spectra rows) /\
    List.length rows = List.length audio /\
    forall i a k n mn,
      nth_error audio i = Some a -> a <> [] ->
      nth_error tf_rnd i = Some k -> nth_error noises k = Some n ->
      reduce_max n = Some mn ->
      ((mn == 0)%Q -> nth_error rows i = Some None) /\
      (~ (mn == 0)%Q ->
       exists mixed, mix_row SCALE a n = Finite mixed /\
                     nth_error rows i = Some (Some (audio_to_fft_row mixed))).
Proof.
  intros [Hlen Hrange].
  destruct (tf_gather_in_range noises tf_rnd Hrange) as (noise & Hg & Hgl & Hnth).
  unfold stream_batch, add_noise. simpl. rewrite Hg. simpl.
  eexists. split; [reflexivity|]. split.
  - unfold audio_to_fft. rewrite length_map, zip_with_length;
      rewrite length_map; [reflexivity | congruence].
  - intros i a k n mn Ha Hne Hk Hn Hmax.
    assert (Hrow : nth_error (zip_with (mix SCALE) (map Finite audio) noise) i
                   = Some (mix_row SCALE a n)).
    { apply (nth_error_zip_with (mix SCALE) _ _ i (Finite a) n).
      - rewrite nth_error_map, Ha. reflexivity.
      - rewrite (Hnth i k Hk). exact Hn. }
    unfold audio_to_fft. rewrite nth_error_map, Hrow. simpl. split.
    + intros Hz. rewrite (mix_row_zero_max SCALE a n mn Hmax Hz). reflexivity.
    + intros Hz. destruct (mix_row_finite SCALE a n mn Hne Hmax Hz) as [mixed Hm].
      exists mixed. rewrite Hm. split; reflexivity.
Qed.

Lemma train_stream_feeds_spectrum_of_mixture_witness :
  exists rows,
    stream_batch (list Q) (fun w => w) train_ds [rumble; silence] [1; 0] [speech; speech]
    = Ok (Spectra rows) /\
    List.length rows = 2.
Proof.
  destruct (train_stream_feeds_spectrum_of_mixture (list Q) (fun w => w)
              [speech; speech] [rumble; silence] [1; 0]) as (rows & H & Hl & _).
  - split; [reflexivity|]. repeat constructor.
  - exists rows. split; assumption.
Defined.

(** ** Spectral transform *)

Module SpectralFacts.
Import Spectral.
Local Open Scope R_scope.

Lemma complex_abs_nonneg (z : R * R) : 0 <= complex_abs z.
Proof. apply sqrt_pos. Qed.

Lemma fft_length (x : list R) : List.length (fft x) = List.length x.
Proof. unfold fft. rewrite length_map, length_seq. reflexivity. Qed.

(** X14. The features of a batch are one row per waveform, holding the
    first half of the bins ([samples // 2] values), none of them
    negative. *)
Theorem audio_to_fft_half_length_nonneg (audio : list (list R)) :
  List.length (audio_to_fft audio) = List.length audio /\
  Forall2 (fun row features =>
             List.length features = (List.length row / 2)%nat /\
             Forall (fun v => 0 <= v) features)
          audio (audio_to_fft audio).
Proof.
  split; [apply length_map|].
  unfold audio_to_fft. induction audio as [|row audio IH]; cbn [map]; constructor.
  - split.
    + rewrite length_map, length_firstn, fft_length.
      apply Nat.min_l. apply Nat.Div0.div_le_upper_bound. lia.
    + apply Forall_forall. intros v Hv. apply in_map_iff in Hv.
      destruct Hv as (z & <- & _). apply complex_abs_nonneg.
  - exact IH.
Qed.

Lemma sum_map_nth (x : list R) :
  Net.sum (map (fun n => nth n x 0) (seq 0 (List.length x))) = Net.sum x.
Proof. rewrite (map_nth_seq 0 x). reflexivity. Qed.

Lemma sum_map_ext {A : Type} (f h : A -> R) (l : list A) :
  (forall a, In a l -> f a = h a) -> Net.sum (map f l) = Net.sum (map h l).
Proof.
  intros H. induction l as [|a l IH]; simpl; [reflexivity|].
  rewrite (H a (or_introl eq_refl)), IH; [reflexivity|].
  intros b Hb. apply H. right. assumption.
Qed.

Lemma sum_map_scale {A : Type} (c : R) (f : A -> R) (l : list A) :
  Net.sum (map (fun a => c * f a) l) = c * Net.sum (map f l).
Proof.
  induction l as [|a l IH]; simpl; [ring | rewrite IH; ring].
Qed.

Lemma angle_zero (N n : nat) : angle N 0 n = 0.
Proof. unfold angle. simpl. unfold Rdiv. ring. Qed.

(** X15. The first feature of a waveform of at least two samples is the
    absolute value of the sum of its samples. *)
Theorem audio_to_fft_first_bin (row : list R) (features : list R) :
  (2 <= List.length row)%nat ->
  audio_to_fft [row] = [features] ->
  nth 0 features 0 = Rabs (Net.sum row).
Proof.
  intros Hlen H. unfold audio_to_fft in H. cbn [map] in H.
  assert (Hf : features
               = map complex_abs (firstn (List.length row / 2)%nat (fft row)))
    by congruence.
  clear H. subst features.
  assert (Hhalf : (1 <= List.length row / 2)%nat)
    by (apply Nat.div_le_lower_bound; lia).
  destruct (List.length row / 2)%nat as [|h] eqn:E; [lia|]. clear E Hhalf.
  unfold fft. destruct (List.length row) as [|len] eqn:El; [lia|].
  cbn [seq map firstn nth]. unfold complex_abs. cbn [fst snd].
  set (x := row) in *.
  assert (Hre : fft_re x 0 = Net.sum x).
  { unfold fft_re. rewrite <- (sum_map_nth x). apply sum_map_ext.
    intros n _. rewrite angle_zero, cos_0. ring. }
  assert (Him : fft_im x 0 = 0).
  { unfold fft_im.
    rewrite (sum_map_ext _ (fun n => 0 * nth n x 0)).
    - rewrite sum_map_scale. ring.
    - intros n _. rewrite angle_zero, sin_0. ring. }
  rewrite Hre, Him.
  replace (Net.sum x * Net.sum x + 0 * 0) with (Rsqr (Net.sum x)) by (unfold Rsqr; ring).
  apply sqrt_Rsqr_abs.
Qed.

Lemma audio_to_fft_first_bin_witness :
  nth 0 (map complex_abs (firstn (4 / 2)%nat (fft [1; 2; 3; 4]))) 0
  = Rabs (Net.sum [1; 2; 3; 4]).
Proof.
  apply (audio_to_fft_first_bin [1; 2; 3; 4]).
  - simpl. lia.
  - reflexivity.
Defined.

Lemma nth_map_scale (c : R) (x : list R) (n : nat) :
  nth n (map (Rmult c) x) 0 = c * nth n x 0.
Proof.
  rewrite <- (Rmult_0_r c) at 1. apply (map_nth (Rmult c)).
Qed.

Lemma fft_re_scale (c : R) (x : list R) (k : nat) :
  fft_re (map (Rmult c) x) k = c * fft_re x k.
Proof.
  unfold fft_re. rewrite length_map, <- sum_map_scale.
  apply sum_map_ext. intros n _. rewrite nth_map_scale. ring.
Qed.

Lemma fft_im_scale (c : R) (x : list R) (k : nat) :
  fft_im (map (Rmult c) x) k = c * fft_im x k.
Proof.
  unfold fft_im. rewrite length_map, <- sum_map_scale.
  apply sum_map_ext. intros n _. rewrite nth_map_scale. ring.
Qed.

Lemma complex_abs_scale (c a b : R) :
  complex_abs (c * a, c * b) = Rabs c * complex_abs (a, b).
Proof.
  unfold complex_abs. cbn [fst snd].
  replace (c * a * (c * a) + c * b * (c * b)) with (Rsqr c * (a * a + b * b))
    by (unfold Rsqr; ring).
  rewrite sqrt_mult.
  - rewrite sqrt_Rsqr_abs. reflexivity.
  - apply Rle_0_sqr.
  - pose proof (Rle_0_sqr a). pose proof (Rle_0_sqr b). unfold Rsqr in *. lra.
Qed.

(** X16. The features scale with the loudness and forget the sign:
    multiplying every sample of the batch by [c] multiplies every feature
    by [|c|]. *)
Theorem audio_to_fft_scales_with_amplitude (c : R) (audio : list (list R)) :
  audio_to_fft (map (map (Rmult c)) audio)
  = map (map (Rmult (Rabs c))) (audio_to_fft audio).
Proof.
  unfold audio_to_fft. rewrite !map_map. apply map_ext. intros row.
  rewrite length_map, map_map. unfold fft at 2.
  rewrite firstn_map, map_map.
  unfold fft. rewrite length_map, firstn_map, map_map.
  apply map_ext. intros k.
  rewrite fft_re_scale, fft_im_scale. apply complex_abs_scale.
Qed.
End SpectralFacts.

(** ** Shapes inside the classifier *)

Module ShapeFacts.
Import Net Demo.
Local Open Scope nat_scope.

Lemma shape_map_seq (steps channels : nat) (f : nat -> list R) :
  (forall t, t < steps -> List.length (f t) = channels) ->
  shape steps channels (map f (seq 0 steps)).
Proof.
  intros H. split.
  - rewrite length_map, length_seq. reflexivity.
  - apply Forall_forall. intros r Hr. apply in_map_iff in Hr.
    destruct Hr as (t & <- & Ht). apply in_seq in Ht. apply H. lia.
Qed.

Lemma shape_nth (steps channels t : nat) (x : Tensor2) :
  shape steps channels x -> t < steps -> List.length (nth t x []) = channels.
Proof.
  intros [Hl Hf] Ht. rewrite Forall_forall in Hf. apply Hf.
  apply nth_In. lia.
Qed.

Lemma Conv1D_shape (kernel_size : nat) (w : Conv1DWeights) (x : Tensor2) :
  shape (List.length x) (List.length (conv_bias w)) (Conv1D kernel_size w x).
Proof.
  unfold Conv1D. apply shape_map_seq. intros t _.
  rewrite length_map, length_seq. reflexivity.
Qed.

Lemma Activation_relu_shape (steps channels : nat) (x : Tensor2) :
  shape steps channels x -> shape steps channels (Activation_relu x).
Proof.
  intros [Hl Hf]. unfold Activation_relu. split.
  - rewrite length_map. exact Hl.
  - apply Forall_forall. intros r Hr. apply in_map_iff in Hr.
    destruct Hr as (r0 & <- & Hr0). rewrite length_map.
    rewrite Forall_forall in Hf. apply Hf. exact Hr0.
Qed.

Lemma Add_shape (steps channels : nat) (x s : Tensor2) :
  shape steps channels x -> shape steps channels s ->
  shape steps channels (Add x s).
Proof.
  intros [Hxl Hxf] [Hsl Hsf]. unfold Add. split.
  - rewrite zip_with_length; congruence.
  - apply zip_with_Forall. intros a b Ha Hb.
    rewrite Forall_forall in Hxf, Hsf.
    rewrite zip_with_length; rewrite (Hxf a Ha); [reflexivity|].
    symmetry. apply Hsf. exact Hb.
Qed.

Lemma MaxPool1D_shape (steps channels : nat) (x : Tensor2) :
  shape steps channels x -> shape (steps / 2) channels (MaxPool1D x).
Proof.
  intros Hx. unfold MaxPool1D. destruct Hx as [Hl Hf]. rewrite Hl.
  apply shape_map_seq. intros t Ht.
  assert (Hb : 2 * (steps / 2) <= steps) by apply Nat.Div0.mul_div_le.
  rewrite zip_with_length;
    rewrite (shape_nth steps channels _ x (conj Hl Hf)) by lia; [reflexivity|].
  symmetry. apply (shape_nth steps channels _ x (conj Hl Hf)). lia.
Qed.

Lemma AveragePooling1D_shape (steps channels : nat) (x : Tensor2) :
  shape steps channels x -> shape (steps / 3) channels (AveragePooling1D x).
Proof.
  intros Hx. unfold AveragePooling1D. destruct Hx as [Hl Hf]. rewrite Hl.
  apply shape_map_seq. intros t Ht.
  assert (Hb : 3 * (steps / 3) <= steps) by apply Nat.Div0.mul_div_le.
  pose proof (shape_nth steps channels (3 * t) x (conj Hl Hf) ltac:(lia)) as H0.
  pose proof (shape_nth steps channels (3 * t + 1) x (conj Hl Hf) ltac:(lia)) as H1.
  pose proof (shape_nth steps channels (3 * t + 2) x (conj Hl Hf) ltac:(lia)) as H2.
  rewrite zip_with_length; rewrite zip_with_length; congruence.
Qed.

Lemma Flatten_length (steps channels : nat) (x : Tensor2) :
  shape steps channels x -> List.length (Flatten x) = steps * channels.
Proof.
  intros [Hl Hf]. unfold Flatten. subst steps.
  induction Hf as [|r x Hr _ IH]; simpl; [reflexivity|].
  rewrite length_app, IH, Hr. reflexivity.
Qed.

Lemma convs_keep_steps (convs : list Conv1DWeights) (x : Tensor2) :
  List.length (fold_left (fun x c => Activation_relu (Conv1D 3 c x)) convs x)
  = List.length x.
Proof.
  revert x. induction convs as [|c convs IH]; intros x; simpl; [reflexivity|].
  rewrite IH. unfold Activation_relu. rewrite length_map.
  apply (proj1 (Conv1D_shape 3 c x)).
Qed.

Lemma residual_block_shape (filters conv_num : nat) (w : BlockWeights) (x : Tensor2) :
  block_shape filters conv_num w ->
  shape (List.length x / 2) filters (residual_block w x).
Proof.
  intros (Hs & _ & _ & Hlast). unfold residual_block.
  apply MaxPool1D_shape, Activation_relu_shape, Add_shape.
  - rewrite <- Hlast, <- (convs_keep_steps (block_convs w) x). apply Conv1D_shape.
  - rewrite <- Hs. apply Conv1D_shape.
Qed.

(** X17. The sizes inside the classifier: each residual block halves the
    number of steps and gives its number of filters as channels, the
    average pooling divides the steps by three, and [Flatten] hands
    [steps * 128] values to the dense layers, whose outputs have 256, 128
    and [num_classes] entries. For the input of 8000 bins the model is
    built for, [Flatten] gives 83 * 128 = 10624 values. *)
Theorem forward_shapes (num_classes : nat) (m : Model) (inputs : Tensor2) :
  built_by num_classes m ->
  let steps := List.length inputs / 2 / 2 / 2 / 2 / 2 / 3 in
  List.length (features m inputs) = steps * 128 /\
  List.length (Dense_relu (dense1 m) (features m inputs)) = 256 /\
  List.length (logits m inputs) = num_classes /\
  List.length (forward m inputs) = num_classes /\
  (List.length inputs = 8000 -> List.length (features m inputs) = 10624).
Proof.
  intros (H1 & H2 & H3 & H4 & H5 & Hd1 & Hd2 & Hout) steps.
  assert (Hfeat : List.length (features m inputs) = steps * 128).
  { unfold features. apply Flatten_length, AveragePooling1D_shape.
    set (x1 := residual_block (block1 m) inputs).
    set (x2 := residual_block (block2 m) x1).
    set (x3 := residual_block (block3 m) x2).
    set (x4 := residual_block (block4 m) x3).
    pose proof (residual_block_shape 16 2 (block1 m) inputs H1) as S1.
    pose proof (residual_block_shape 32 2 (block2 m) x1 H2) as S2.
    pose proof (residual_block_shape 64 3 (block3 m) x2 H3) as S3.
    pose proof (residual_block_shape 128 3 (block4 m) x3 H4) as S4.
    pose proof (residual_block_shape 128 3 (block5 m) x4 H5) as S5.
    fold x1 in S1. fold x2 in S2. fold x3 in S3. fold x4 in S4.
    rewrite (proj1 S4), (proj1 S3), (proj1 S2), (proj1 S1) in S5. exact S5. }
  split; [exact Hfeat|].
  split; [unfold Dense_relu; rewrite length_map, NetFacts.Dense_linear_length; exact Hd1|].
  split; [unfold logits; rewrite NetFacts.Dense_linear_length; exact Hout|].
  split.
  - change (forward m inputs) with (softmax (logits m inputs)).
    rewrite NetFacts.softmax_length. unfold logits.
    rewrite NetFacts.Dense_linear_length. exact Hout.
  - intros H8000. rewrite Hfeat. unfold steps. rewrite H8000. reflexivity.
Qed.

Lemma forward_shapes_witness :
  List.length (forward (zero_model 5) [[1%R]; [2%R]]) = 5.
Proof.
  exact (proj1 (proj2 (proj2 (proj2
    (forward_shapes 5 (zero_model 5) [[1%R]; [2%R]] (NetFacts.zero_model_built 5)))))).
Defined.
End ShapeFacts.

(** ** Predicted classes *)

Module PredictionFacts.
Import Net Demo.
Local Open Scope R_scope.

(** [argmax_from] on the rest of a list [l], knowing the best position of
    the part already seen. *)
Lemma argmax_from_spec (l : list R) :
  forall rest pre best_i,
    l = pre ++ rest -> (best_i < List.length pre)%nat ->
    (forall j, (j < List.length pre)%nat -> nth j l 0 <= nth best_i l 0) ->
    (forall j, (j < best_i)%nat -> nth j l 0 < nth best_i l 0) ->
    let c := argmax_from best_i (nth best_i l 0) (List.length pre) rest in
    (c < List.length l)%nat /\
    (forall j, (j < List.length l)%nat -> nth j l 0 <= nth c l 0) /\
    (forall j, (j < c)%nat -> nth j l 0 < nth c l 0).
Proof.
  induction rest as [|v rest IH]; intros pre best_i Hl Hb Hle Hlt; simpl.
  - rewrite app_nil_r in Hl. subst pre. auto.
  - assert (Hl' : l = (pre ++ [v]) ++ rest) by (rewrite <- app_assoc; exact Hl).
    assert (Hv : nth (List.length pre) l 0 = v).
    { rewrite Hl, app_nth2, Nat.sub_diag by lia. reflexivity. }
    assert (Hlen' : List.length (pre ++ [v]) = S (List.length pre)).
    { rewrite length_app. simpl. lia. }
    destruct (Rlt_dec (nth best_i l 0) v) as [Hbetter | Hnot].
    + assert (H : let c := argmax_from (List.length pre)
                             (nth (List.length pre) l 0)
                             (List.length (pre ++ [v])) rest in
                  (c < List.length l)%nat /\
                  (forall j, (j < List.length l)%nat -> nth j l 0 <= nth c l 0) /\
                  (forall j, (j < c)%nat -> nth j l 0 < nth c l 0)).
      { apply (IH (pre ++ [v]) (List.length pre) Hl').
        - lia.
        - intros j Hj. rewrite Hlen' in Hj. rewrite Hv.
          destruct (Nat.eq_dec j (List.length pre)) as [-> | Hne].
          + rewrite Hv. apply Rle_refl.
          + specialize (Hle j ltac:(lia)). lra.
        - intros j Hj. rewrite Hv. specialize (Hle j Hj). lra. }
      rewrite Hv, Hlen' in H. exact H.
    + assert (H : let c := argmax_from best_i (nth best_i l 0)
                             (List.length (pre ++ [v])) rest in
                  (c < List.length l)%nat /\
                  (forall j, (j < List.length l)%nat -> nth j l 0 <= nth c l 0) /\
                  (forall j, (j < c)%nat -> nth j l 0 < nth c l 0)).
      { apply (IH (pre ++ [v]) best_i Hl').
        - lia.
        - intros j Hj. rewrite Hlen' in Hj.
          destruct (Nat.eq_dec j (List.length pre)) as [-> | Hne].
          + rewrite Hv. lra.
          + apply Hle. lia.
        - exact Hlt. }
      rewrite Hlen' in H. exact H.
Qed.

Lemma np_argmax_spec (x : list R) :
  x <> [] ->
  exists c, np_argmax x = Some c /\
    (c < List.length x)%nat /\
    (forall j, (j < List.length x)%nat -> nth j x 0 <= nth c x 0) /\
    (forall j, (j < c)%nat -> nth j x 0 < nth c x 0).
Proof.
  destruct x as [|v rest]; [intros H; contradiction H; reflexivity|]. intros _.
  exists (argmax_from 0 v 1 rest). split; [reflexivity|].
  apply (argmax_from_spec (v :: rest) rest [v] 0).
  - reflexivity.
  - simpl. lia.
  - intros j Hj. simpl in Hj. replace j with 0%nat by lia. apply Rle_refl.
  - intros j Hj. lia.
Qed.

Lemma argmax_from_increasing (f : R -> R) (best_i : nat) (best_v : R) (i : nat)
    (x : list R) :
  (forall a b, a < b <-> f a < f b) ->
  argmax_from best_i (f best_v) i (map f x) = argmax_from best_i best_v i x.
Proof.
  intros Hf. revert best_i best_v i.
  induction x as [|v x IH]; intros best_i best_v i; simpl; [reflexivity|].
  destruct (Rlt_dec (f best_v) (f v)) as [H|H];
    destruct (Rlt_dec best_v v) as [H'|H'].
  - apply IH.
  - exfalso. apply H'. apply (proj2 (Hf best_v v)). exact H.
  - exfalso. apply H. apply (proj1 (Hf best_v v)). exact H'.
  - apply IH.
Qed.

Lemma np_argmax_softmax (z : list R) : np_argmax (softmax z) = np_argmax z.
Proof.
  destruct z as [|v z]; [reflexivity|].
  unfold softmax. set (s := sum (map exp (v :: z))).
  assert (Hs : 0 < s) by (apply NetFacts.sum_exp_pos; discriminate).
  change (map exp (v :: z)) with (map exp (v :: z)).
  rewrite map_map. cbn [map np_argmax]. f_equal.
  apply (argmax_from_increasing (fun u => exp u / s)).
  intros a b. split.
  - intros H. apply Rmult_lt_compat_r; [apply Rinv_0_lt_compat; exact Hs|].
    apply exp_increasing. exact H.
  - intros H. apply exp_lt_inv.
    apply Rmult_lt_reg_r with (/ s); [apply Rinv_0_lt_compat; exact Hs | exact H].
Qed.

(** X19. The class predicted for any input is an index below
    [num_classes], so [class_names[y_pred]] is defined; it is the first
    class of the highest probability, and it is the first position of the
    largest value of the last layer before the softmax. *)
Theorem predicted_class_is_a_known_class (num_classes : nat) (m : Model)
    (ffts : list Tensor2) :
  (0 < num_classes)%nat -> built_by num_classes m ->
  List.length (predicted_classes m ffts) = List.length ffts /\
  forall i inputs,
    nth_error ffts i = Some inputs ->
    exists c,
      nth_error (predicted_classes m ffts) i = Some (Some c) /\
      (c < num_classes)%nat /\
      (forall j, (j < num_classes)%nat ->
                 nth j (forward m inputs) 0 <= nth c (forward m inputs) 0) /\
      (forall j, (j < c)%nat ->
                 nth j (forward m inputs) 0 < nth c (forward m inputs) 0) /\
      np_argmax (logits m inputs) = Some c.
Proof.
  intros Hn Hm. unfold predicted_classes, predict.
  split; [rewrite !length_map; reflexivity|].
  intros i inputs Hi.
  assert (Hlen : List.length (forward m inputs) = num_classes).
  { destruct Hm as (_ & _ & _ & _ & _ & _ & _ & Hout).
    change (forward m inputs) with (softmax (logits m inputs)).
    rewrite NetFacts.softmax_length. unfold logits.
    rewrite NetFacts.Dense_linear_length. exact Hout. }
  assert (Hne : forward m inputs <> []).
  { intros E. rewrite E in Hlen. simpl in Hlen. lia. }
  destruct (np_argmax_spec _ Hne) as (c & Hc & Hlt & Hmax & Hfirst).
  exists c. rewrite !nth_error_map, Hi. simpl. rewrite Hc.
  rewrite Hlen in Hlt, Hmax.
  split; [reflexivity|]. split; [exact Hlt|]. split; [exact Hmax|].
  split; [exact Hfirst|].
  rewrite <- Hc. change (forward m inputs) with (softmax (logits m inputs)).
  symmetry. apply np_argmax_softmax.
Qed.

Lemma predicted_class_is_a_known_class_witness :
  List.length (predicted_classes (zero_model 5) [[[1]; [2]]]) = 1%nat.
Proof.
  refine (proj1 (predicted_class_is_a_known_class 5 (zero_model 5) [[[1]; [2]]] _ _)).
  - lia.
  - apply NetFacts.zero_model_built.
Defined.
End PredictionFacts.

(** ** Early stopping in general *)

Lemma monitor_op_trans (m : Monitor) (x y z : Q) :
  monitor_op m x y = true -> monitor_op m y z = true -> monitor_op m x z = true.
Proof.
  destruct m; simpl; rewrite !Qltb_lt; intros H1 H2.
  - apply Qlt_trans with y; assumption.
  - apply Qlt_trans with y; assumption.
Qed.

Lemma monitor_op_beats (m : Monitor) (x y z : Q) :
  monitor_op m x y = true -> monitor_op m z y = false -> monitor_op m x z = true.
Proof.
  destruct m; simpl; rewrite !Qltb_lt, Qltb_ge; intros H1 H2.
  - apply Qlt_le_trans with y; assumption.
  - apply Qle_lt_trans with y; assumption.
Qed.

Section FitInGeneral.
Variable Weights : Type.
Variable train_epoch : nat -> Weights -> Weights.
Variable evaluate : nat -> Weights -> Logs.
Variable initial : Weights.
Variable m : Monitor.

Let cb : EarlyStopping := earlystopping_on m.
Let W (n : nat) : Weights := weights_after Weights train_epoch n initial.
Let value (e : nat) : Q := get_monitor_value m (evaluate e (W (S e))).
Let better (e b : nat) : bool := monitor_op m (value e) (value b).
Let step (k : nat) (st : CallbackState Weights) : CallbackState Weights :=
  on_epoch_end Weights cb k (evaluate k (W (S k))) (W (S k)) st.
Let loop (remaining k : nat) (st : CallbackState Weights) :=
  fit_loop Weights train_epoch evaluate cb remaining k (W k) st.

(** [b] is the first of the epochs [0 .. k-1] with the best value. *)
Let first_best (k b : nat) : Prop :=
  b < k /\
  (forall j, j < b -> better b j = true) /\
  (forall j, b < j < k -> better j b = false).

Let following (k b : nat) (st : CallbackState Weights) : Prop :=
  first_best k b /\
  stop_training Weights st = false /\
  best Weights st = Some (value b) /\
  best_weights Weights st = Some (W (S b)) /\
  wait Weights st = k - 1 - b /\
  k - 1 - b < 10.

Lemma general_loop_unfold (remaining k : nat) (st : CallbackState Weights) :
  loop (S remaining) k st
  = if stop_training Weights (step k st) then (S k, W (S k), step k st)
    else loop remaining (S k) (step k st).
Proof. reflexivity. Qed.

Lemma run_from (remaining : nat) :
  forall k b st,
    following k b st ->
    exists ran b' st',
      loop remaining k st = (ran, W ran, st') /\
      first_best ran b' /\
      best_weights Weights st' = Some (W (S b')) /\
      ran = Nat.min (k + remaining) (b' + 11).
Proof.
  induction remaining as [|remaining IH];
    intros k b st ((Hb & Hbefore & Hafter) & Hstop & Hbest & Hbw & Hwait & Hpat).
  - exists k, b, st. split; [reflexivity|].
    split; [exact (conj Hb (conj Hbefore Hafter))|]. split; [exact Hbw | lia].
  - rewrite general_loop_unfold.
    destruct (better k b) eqn:Himp.
    + pose proof (on_epoch_end_improves Weights m k (evaluate k (W (S k))) (W (S k))
                    st (value b) (W (S b)) Hbest Hbw Himp) as E.
      unfold step, cb. rewrite E. cbn [stop_training]. rewrite Hstop.
      destruct (IH (S k) k
                  {| wait := 0; best := Some (value k);
                     best_weights := Some (W (S k)); best_epoch := k;
                     stopped_epoch := stopped_epoch Weights st;
                     stop_training := false |})
        as (ran & b' & st' & Hl & Hfb & Hbw' & Hran).
      * repeat split; cbn; try assumption; try reflexivity; try lia.
        intros j Hj. destruct (Nat.lt_trichotomy j b) as [Hjb | [-> | Hjb]].
        -- apply (monitor_op_trans m _ (value b)); [exact Himp | apply Hbefore; exact Hjb].
        -- exact Himp.
        -- apply (monitor_op_beats m _ (value b)); [exact Himp | apply Hafter; lia].
      * exists ran, b', st'. split; [exact Hl|]. split; [exact Hfb|].
        split; [exact Hbw' | lia].
    + destruct (Nat.lt_ge_cases (k - b) 10) as [Hlt | Hge].
      * assert (Hw : S (wait Weights st) < 10) by lia.
        pose proof (on_epoch_end_waits Weights m k (evaluate k (W (S k))) (W (S k))
                      st (value b) (W (S b)) Hbest Hbw Himp Hw) as E.
        unfold step, cb. rewrite E. cbn [stop_training]. rewrite Hstop.
        destruct (IH (S k) b
                    {| wait := S (wait Weights st); best := Some (value b);
                       best_weights := Some (W (S b));
                       best_epoch := best_epoch Weights st;
                       stopped_epoch := stopped_epoch Weights st;
                       stop_training := false |})
          as (ran & b' & st' & Hl & Hfb & Hbw' & Hran).
        -- repeat split; cbn; try assumption; try reflexivity; try lia.
           intros j Hj. destruct (Nat.eq_dec j k) as [-> | Hne];
             [exact Himp | apply Hafter; lia].
        -- exists ran, b', st'. split; [exact Hl|]. split; [exact Hfb|].
           split; [exact Hbw' | lia].
      * assert (Hw : 10 <= S (wait Weights st)) by lia.
        assert (Hk : 0 < k) by lia.
        pose proof (on_epoch_end_stops Weights m k (evaluate k (W (S k))) (W (S k))
                      st (value b) (W (S b)) Hbest Hbw Himp Hw Hk) as E.
        unfold step, cb. rewrite E. cbn [stop_training].
        eexists (S k), b, _. split; [reflexivity|].
        split; [|split; [reflexivity | lia]].
        repeat split; try assumption; try lia.
        intros j Hj. destruct (Nat.eq_dec j k) as [-> | Hne];
          [exact Himp | apply Hafter; lia].
Qed.

Lemma fit_in_general (epochs : nat) :
  1 <= epochs ->
  exists ran b,
    fit Weights train_epoch evaluate cb epochs initial = (ran, W (S b)) /\
    first_best ran b /\
    ran = Nat.min epochs (b + 11).
Proof.
  intros Hep. destruct epochs as [|remaining]; [lia|].
  unfold fit. fold cb. change initial with (W 0).
  fold (loop (S remaining) 0 (on_train_begin Weights)).
  rewrite general_loop_unfold.
  assert (Hfirst : following 1 0 (step 0 (on_train_begin Weights))).
  { unfold following, first_best, step, on_epoch_end. simpl.
    repeat split; try reflexivity; try lia. }
  assert (Hs : stop_training Weights (step 0 (on_train_begin Weights)) = false)
    by (destruct Hfirst as (_ & H & _); exact H).
  rewrite Hs.
  destruct (run_from remaining 1 0 _ Hfirst) as (ran & b & st' & Hl & Hfb & Hbw & Hran).
  exists ran, b. rewrite Hl. unfold on_train_end. simpl. rewrite Hbw.
  split; [reflexivity|]. split; [exact Hfb | exact Hran].
Qed.
End FitInGeneral.

(** X20. How [model.fit] ends with the callback of the notebook, for any
    number of epochs: it runs [min(epochs, b + 11)] epochs, where epoch
    [b] (counted from 0) is the first one with the lowest validation loss
    of all epochs run, and the model is left with the weights of that
    epoch. So the run ends ten epochs after its best one or at the last
    epoch, and the weights kept are never those of a worse epoch. *)
Theorem fit_ends_ten_epochs_after_the_best
    (Weights : Type) (train_epoch : nat -> Weights -> Weights)
    (evaluate : nat -> Weights -> Logs) (initial : Weights) (epochs : nat) :
  let loss e := val_loss (logs_of Weights train_epoch evaluate initial e) in
  1 <= epochs ->
  exists ran b,
    fit Weights train_epoch evaluate earlystopping_cb epochs initial
    = (ran, weights_after Weights train_epoch (S b) initial) /\
    b < ran <= epochs /\
    ran = Nat.min epochs (b + 11) /\
    (forall j, j < b -> (loss b < loss j)%Q) /\
    (forall j, b < j < ran -> (loss b <= loss j)%Q).
Proof.
  intros loss Hep.
  destruct (fit_in_general Weights train_epoch evaluate initial val_loss_name epochs Hep)
    as (ran & b & Hfit & (Hb & Hbefore & Hafter) & Hran).
  exists ran, b. split; [exact Hfit|]. split; [lia|]. split; [exact Hran|]. split.
  - intros j Hj. apply Qltb_lt. exact (Hbefore j Hj).
  - intros j Hj. apply Qltb_ge. exact (Hafter j Hj).
Qed.

Lemma fit_ends_ten_epochs_after_the_best_witness :
  exists ran b,
    fit nat steady_train plateau_evaluate earlystopping_cb 100 0
    = (ran, weights_after nat steady_train (S b) 0) /\
    b < ran <= 100 /\
    ran = Nat.min 100 (b + 11).
Proof.
  destruct (fit_ends_ten_epochs_after_the_best nat steady_train plateau_evaluate 0 100)
    as (ran & b & Hfit & Hb & Hran & _).
  - lia.
  - exists ran, b. split; [exact Hfit|]. split; assumption.
Defined.

(** X21. Early stopping cannot end a run of at most eleven epochs: it
    runs all its epochs. With [EPOCHS = 1], as the notebook is configured,
    [model.fit] trains one epoch and keeps its weights. *)
Theorem fit_runs_all_of_eleven_epochs
    (Weights : Type) (train_epoch : nat -> Weights -> Weights)
    (evaluate : nat -> Weights -> Logs) (initial : Weights) (epochs : nat) :
  epochs <= 11 ->
  fst (fit Weights train_epoch evaluate earlystopping_cb epochs initial) = epochs /\
  fit Weights train_epoch evaluate earlystopping_cb EPOCHS initial
  = (1, train_epoch 0 initial).
Proof.
  intros Hep. split.
  - destruct epochs as [|n]; [reflexivity|].
    destruct (fit_in_general Weights train_epoch evaluate initial val_loss_name (S n))
      as (ran & b & Hfit & _ & Hran); [lia|].
    change (earlystopping_on val_loss_name) with earlystopping_cb in Hfit.
    rewrite Hfit. simpl fst. lia.
  - reflexivity.
Qed.

Lemma fit_runs_all_of_eleven_epochs_witness :
  fst (fit nat steady_train plateau_evaluate earlystopping_cb 7 0) = 7.
Proof.
  apply (fit_runs_all_of_eleven_epochs nat steady_train plateau_evaluate 0 7). lia.
Defined.

(** ** The checkpoint *)

Section CheckpointFacts.
Variable Weights : Type.
Variable train_epoch : nat -> Weights -> Weights.
Variable evaluate : nat -> Weights -> Logs.
Variable initial : Weights.

Let accuracy (e : nat) : Q :=
  val_accuracy (logs_of Weights train_epoch evaluate initial e).

Lemma checkpoint_after_epochs (n : nat) :
  1 <= n ->
  exists c,
    c < n /\
    checkpoint_after Weights train_epoch evaluate mdlcheckpoint_cb n initial
    = {| checkpoint_best := Some (accuracy c);
         saved_file := Some (weights_after Weights train_epoch (S c) initial) |} /\
    (forall j, j < c -> (accuracy j < accuracy c)%Q) /\
    (forall j, c < j < n -> (accuracy j <= accuracy c)%Q).
Proof.
  induction n as [|n IH]; [lia|]. intros _.
  destruct n as [|n].
  - exists 0. repeat split; try lia. 
  - destruct (IH ltac:(lia)) as (c & Hc & Hst & Hbefore & Hafter).
    cbn [checkpoint_after]. cbn [checkpoint_after] in Hst. rewrite Hst.
    unfold checkpoint_epoch_end. cbn [save_best_only mdlcheckpoint_cb
      checkpoint_monitor checkpoint_best is_improvement monitor_op get_monitor_value].
    fold (accuracy (S n)).
    destruct (Qltb (accuracy c) (accuracy (S n))) eqn:Himp.
    + apply Qltb_lt in Himp. exists (S n). repeat split; try lia.
      intros j Hj. destruct (Nat.lt_trichotomy j c) as [Hjc | [-> | Hjc]].
      * apply Qlt_trans with (accuracy c); [apply Hbefore; exact Hjc | exact Himp].
      * exact Himp.
      * apply Qle_lt_trans with (accuracy c); [apply Hafter; lia | exact Himp].
    + apply Qltb_ge in Himp. exists c. repeat split; try lia; try assumption.
      intros j Hj. destruct (Nat.eq_dec j (S n)) as [-> | Hne];
        [exact Himp | apply Hafter; lia].
Qed.
End CheckpointFacts.

(** X22. The file the checkpoint callback leaves after a run of at least
    one epoch holds the weights of the first epoch with the highest
    validation accuracy among the epochs that were run; epochs that only
    equal the best so far do not overwrite it. *)
Theorem saved_model_is_first_most_accurate_epoch
    (Weights : Type) (train_epoch : nat -> Weights -> Weights)
    (evaluate : nat -> Weights -> Logs) (initial : Weights) (epochs : nat) :
  let accuracy e := val_accuracy (logs_of Weights train_epoch evaluate initial e) in
  let ran := fst (fit Weights train_epoch evaluate earlystopping_cb epochs initial) in
  1 <= epochs ->
  exists c,
    c < ran /\
    saved_model Weights train_epoch evaluate earlystopping_cb mdlcheckpoint_cb
      epochs initial
    = Some (weights_after Weights train_epoch (S c) initial) /\
    (forall j, j < c -> (accuracy j < accuracy c)%Q) /\
    (forall j, c < j < ran -> (accuracy j <= accuracy c)%Q).
Proof.
  intros accuracy ran Hep.
  assert (Hran : 1 <= ran).
  { destruct (fit_in_general Weights train_epoch evaluate initial val_loss_name epochs Hep)
      as (r & b & Hfit & (Hb & _) & _).
    unfold ran. change earlystopping_cb with (earlystopping_on val_loss_name).
    rewrite Hfit. simpl. lia. }
  destruct (checkpoint_after_epochs Weights train_epoch evaluate initial ran Hran)
    as (c & Hc & Hst & Hbefore & Hafter).
  exists c. split; [exact Hc|]. split; [|split; assumption].
  unfold saved_model. fold ran. rewrite Hst. reflexivity.
Qed.

Lemma saved_model_is_first_most_accurate_epoch_witness :
  exists c,
    saved_model nat steady_train steady_evaluate earlystopping_cb mdlcheckpoint_cb 100 0
    = Some (weights_after nat steady_train (S c) 0).
Proof.
  destruct (saved_model_is_first_most_accurate_epoch nat steady_train steady_evaluate 0 100)
    as (c & _ & H & _).
  - lia.
  - exists c. exact H.
Defined.

(** ** Batches *)

Lemma batches_of_spec {A : Type} (batch_size : nat) :
  1 <= batch_size ->
  forall fuel (xs : list A),
    List.length xs <= fuel ->
    List.concat (batches_of fuel batch_size xs) = xs /\
    Forall (fun b => 1 <= List.length b <= batch_size) (batches_of fuel batch_size xs) /\
    List.length (batches_of fuel batch_size xs)
    = (List.length xs + batch_size - 1) / batch_size /\
    (forall i b, S i < List.length (batches_of fuel batch_size xs) ->
                 nth_error (batches_of fuel batch_size xs) i = Some b ->
                 List.length b = batch_size).
Proof.
  intros Hn. induction fuel as [|fuel IH]; intros xs Hlen.
  - destruct xs; [|simpl in Hlen; lia]. simpl.
    repeat split; [constructor | | intros i b Hi; simpl in Hi; lia].
    symmetry. apply Nat.div_small. lia.
  - destruct xs as [|x xs'] eqn:E.
    + simpl. repeat split; [constructor | | intros i b Hi; simpl in Hi; lia].
      symmetry. apply Nat.div_small. lia.
    + change (batches_of (S fuel) batch_size (x :: xs'))
        with (firstn batch_size (x :: xs')
              :: batches_of fuel batch_size (skipn batch_size (x :: xs'))).
      rewrite <- E in *.
      assert (Hpos : 1 <= List.length xs) by (rewrite E; simpl; lia).
      destruct (IH (skipn batch_size xs)) as (Hc & Hf & Hcount & Hfull).
      { rewrite length_skipn. lia. }
      cbn [List.concat List.length]. rewrite Hc, firstn_skipn.
      split; [reflexivity|]. split; [|split].
      * constructor; [|exact Hf]. rewrite length_firstn. lia.
      * rewrite Hcount, length_skipn.
        destruct (Nat.le_gt_cases batch_size (List.length xs)) as [Hge | Hlt].
        -- replace (List.length xs + batch_size - 1)
             with ((List.length xs - batch_size + batch_size - 1) + 1 * batch_size) by lia.
           rewrite Nat.div_add by lia. lia.
        -- replace (List.length xs - batch_size) with 0 by lia.
           rewrite (Nat.div_small (0 + batch_size - 1)) by lia.
           apply (Nat.div_unique _ _ 1 (List.length xs - 1)); lia.
      * intros i b Hi Hb. destruct i as [|i].
        -- cbn [nth_error] in Hb. injection Hb as <-.
           rewrite length_firstn.
           destruct (Nat.le_gt_cases batch_size (List.length xs)) as [Hge | Hlt]; [lia|].
           exfalso. cbn [List.length] in Hi. rewrite Hcount, length_skipn in Hi.
           replace (List.length xs - batch_size) with 0 in Hi by lia.
           rewrite (Nat.div_small (0 + batch_size - 1)) in Hi by lia. lia.
        -- cbn [nth_error] in Hb. cbn [List.length] in Hi.
           apply (Hfull i b); [lia | exact Hb].
Qed.

(** X23. Batching loses and reorders nothing: for a batch size of at
    least one the batches, concatenated, are the stream; there are
    [ceil(n / batch_size)] of them, none empty, none larger than the batch
    size, and all but the last are full. *)
Theorem dataset_batch_partitions_the_stream {A : Type} (batch_size : nat) (xs : list A) :
  1 <= batch_size ->
  exists batches,
    dataset_batch batch_size xs = Ok batches /\
    List.concat batches = xs /\
    Forall (fun b => 1 <= List.length b <= batch_size) batches /\
    List.length batches = (List.length xs + batch_size - 1) / batch_size /\
    (forall i b, S i < List.length batches -> nth_error batches i = Some b ->
                 List.length b = batch_size).
Proof.
  intros Hn. unfold dataset_batch.
  destruct (Nat.eqb_spec batch_size 0) as [->|_]; [lia|].
  eexists. split; [reflexivity|].
  apply (batches_of_spec batch_size Hn (List.length xs) xs). lia.
Qed.

Lemma dataset_batch_partitions_the_stream_witness :
  exists batches,
    dataset_batch 2 five_clips = Ok batches /\
    List.concat batches = five_clips /\
    List.length batches = (5 + 2 - 1) / 2.
Proof.
  destruct (dataset_batch_partitions_the_stream 2 five_clips) as (bs & H & Hc & _ & Hl & _).
  - lia.
  - exists bs. repeat split; assumption.
Defined.

(** ** The demonstration cell *)

Lemma np_take_in_range {A : Type} (a : list A) (rnd : list nat) :
  Forall (fun i => i < List.length a) rnd ->
  exists rows, np_take a rnd = Some rows /\ List.length rows = List.length rnd.
Proof.
  induction 1 as [|i rest Hi _ (rows & IH & Hl)]; simpl.
  - exists []. split; reflexivity.
  - destruct (nth_error a i) as [v|] eqn:E.
    + rewrite IH. exists (v :: rows). split; [reflexivity | simpl; congruence].
    + apply nth_error_None in E. lia.
Qed.

Lemma np_take_out_of_range {A : Type} (a : list A) (rnd : list nat) (i : nat) :
  In i rnd -> List.length a <= i -> np_take a rnd = None.
Proof.
  intros Hin Hi. induction rnd as [|j rest IH]; [destruct Hin|]. simpl.
  destruct Hin as [-> | Hin].
  - rewrite (proj2 (nth_error_None a i) Hi). reflexivity.
  - rewrite (IH Hin). destruct (nth_error a j); reflexivity.
Qed.

Lemma BATCH_SIZE_pos : 1 <= BATCH_SIZE.
Proof. unfold BATCH_SIZE. lia. Qed.

Lemma first_batch {A : Type} (x : A) (xs : list A) :
  dataset_batch BATCH_SIZE (x :: xs)
  = Ok (firstn BATCH_SIZE (x :: xs)
        :: batches_of (List.length xs) BATCH_SIZE (skipn BATCH_SIZE (x :: xs))).
Proof. reflexivity. Qed.

(** X24. The demonstration indexes the first test batch with indices
    drawn below [BATCH_SIZE]. With at least [BATCH_SIZE] test clips every
    draw shows [SAMPLES_TO_DISPLAY] rows; with fewer (but some) clips the
    first batch is short, and every draw that holds an index not below the
    number of clips ends in the [IndexError] of the indexing. *)
Theorem demo_needs_a_full_batch {A : Type} (stream : list A) (rnd : list nat) :
  demo_draw rnd ->
  (BATCH_SIZE <= List.length stream ->
   exists rows, demo_rows stream rnd = Ok (Some rows) /\
                List.length rows = SAMPLES_TO_DISPLAY) /\
  (forall i, 1 <= List.length stream -> In i rnd -> List.length stream <= i ->
             demo_rows stream rnd = Ok None).
Proof.
  intros [Hlen Hrange]. split.
  - intros Hfull. destruct stream as [|x xs]; [simpl in Hfull; pose proof BATCH_SIZE_pos; lia|].
    unfold demo_rows. rewrite first_batch. cbn [bind].
    destruct (np_take_in_range (firstn BATCH_SIZE (x :: xs)) rnd) as (rows & Hr & Hl).
    + rewrite length_firstn, Nat.min_l by exact Hfull. exact Hrange.
    + exists rows. rewrite Hr. split; [reflexivity | congruence].
  - intros i Hne Hin Hi. destruct stream as [|x xs]; [simpl in Hne; lia|].
    unfold demo_rows. rewrite first_batch. cbn [bind].
    rewrite (np_take_out_of_range _ rnd i Hin); [reflexivity|].
    rewrite length_firstn. lia.
Qed.

Lemma demo_needs_a_full_batch_witness :
  demo_rows five_clips [0; 1; 2; 3; 4; 5; 0; 1; 2; 3] = Ok None.
Proof.
  refine (proj2 (demo_needs_a_full_batch five_clips [0; 1; 2; 3; 4; 5; 0; 1; 2; 3] _)
            5 _ _ _).
  - split; [reflexivity|]. unfold BATCH_SIZE. repeat constructor; lia.
  - simpl. lia.
  - simpl. tauto.
  - simpl. lia.
Defined.

(** ** Noise below zero *)

(** X25. A noise chunk that lies entirely below zero has a negative
    maximum; against a waveform with a positive maximum the coefficient
    is then negative, and the chunk is added upside down: no sample of the
    mixture is below the sample of the waveform. *)
Theorem mix_row_inverts_negative_noise (scale : Q) (audio noise : list Q) (ma mn : Q) :
  (0 <= scale)%Q -> List.length audio = List.length noise ->
  reduce_max audio = Some ma -> (0 <= ma)%Q ->
  reduce_max noise = Some mn -> (mn < 0)%Q ->
  exists mixed,
    mix_row scale audio noise = Finite mixed /\
    Forall2 (fun v a => (a <= v)%Q) mixed audio.
Proof.
  intros Hs Hlen Ha Hma Hn Hmn. unfold mix_row. rewrite Ha, Hn.
  assert (Hz : ~ (mn == 0)%Q) by (intros E; rewrite E in Hmn; apply (Qlt_irrefl 0 Hmn)).
  rewrite (proj2 (Qeq_bool_false mn 0) Hz).
  eexists. split; [reflexivity|].
  pose proof (reduce_max_ge noise mn Hn) as Hle.
  assert (Hprop : (ma / mn <= 0)%Q).
  { assert (Hneg : (0 <= ma / (- mn))%Q).
    { apply Qle_shift_div_l; [lra | rewrite Qmult_0_l; assumption]. }
    assert (E : (ma / mn == - (ma / (- mn)))%Q).
    { field. intros H0. apply Hz. lra. }
    rewrite E. lra. }
  clear Ha Hn. revert noise Hlen Hle.
  induction audio as [|a audio IH]; intros [|n noise] Hlen Hle; simpl in *; try lia.
  - constructor.
  - constructor.
    + assert (Hn0 : (n <= 0)%Q).
      { apply Qle_trans with mn; [apply Hle; left; reflexivity | apply Qlt_le_weak; assumption]. }
      assert (Hterm : (0 <= n * (ma / mn) * scale)%Q).
      { apply Qmult_le_0_compat; [|assumption].
        setoid_replace (n * (ma / mn))%Q with ((- n) * (- (ma / mn)))%Q by ring.
        apply Qmult_le_0_compat; lra. }
      lra.
    + apply IH; [lia|]. intros v Hv. apply Hle. right. assumption.
Qed.

Lemma mix_row_inverts_negative_noise_witness :
  exists mixed,
    mix_row SCALE speech sunk = Finite mixed /\
    Forall2 (fun v a => (a <= v)%Q) mixed speech.
Proof.
  apply (mix_row_inverts_negative_noise SCALE speech sunk (1 # 2) (- (1 # 4))).
  - apply Qle_bool_iff. reflexivity.
  - reflexivity.
  - reflexivity.
  - apply Qle_bool_iff. reflexivity.
  - reflexivity.
  - apply Qltb_lt. reflexivity.
Defined.
